(** * pmemkv: the C front end of the key-value store (src/libpmemkv.cc)

    A shallow embedding of the configuration container, its JSON
    ingestion, engine dispatch and the query facade, with the properties
    the specification states about them.

    Platform: LP64, little-endian (the targets pmemkv builds for), so
    [sizeof(void * )] = [sizeof(size_t)] = [sizeof(int64_t)] = 8 and an
    integer lies in memory as its eight bytes, least significant first.

    Memory allocation is taken to succeed: [operator new] does not throw.
    The handlers that only serve [std::bad_alloc] are named in the comment
    of the function that has them. *)

From Stdlib Require Import ZArith Lia String Ascii.
From coqutil Require Import Byte Word.LittleEndianList.
From stdpp Require Import gmap strings list fin_maps.

Local Open Scope Z_scope.

(** ** Status protocol (libpmemkv.h) *)

Inductive status :=
| PMEMKV_STATUS_OK
| PMEMKV_STATUS_FAILED
| PMEMKV_STATUS_NOT_FOUND
| PMEMKV_STATUS_INVALID_ARGUMENT
| PMEMKV_STATUS_CONFIG_PARSING_ERROR
| PMEMKV_STATUS_CONFIG_TYPE_ERROR.

Global Instance status_eq_dec : EqDecision status.
Proof. solve_decision. Defined.

(** ** Machine integers and C strings *)

Definition INT64_MAX : Z := 2 ^ 63 - 1.
Definition INT64_MIN : Z := - 2 ^ 63.
Definition UINT64_MAX : Z := 2 ^ 64 - 1.
Definition sizeof_ptr : nat := 8.

(** The value of a 64-bit pattern read through [int64_t]. *)
Definition to_int64 (u : Z) : Z :=
  let m := u mod 2 ^ 64 in if m <? 2 ^ 63 then m else m - 2 ^ 64.

(** The object representation of a 64-bit integer, signed or not. *)
Definition bytes_of_int (v : Z) : list byte := le_split 8 v.

(** [*(static_cast<const uint64_t * >(data))]: eight bytes are read;
    fewer behind [data] is an out-of-bounds read. *)
Definition load_uint64 (data : list byte) : option Z :=
  if decide (8 <= length data)%nat then Some (le_combine (take 8 data)) else None.

Definition load_int64 (data : list byte) : option Z :=
  to_int64 <$> load_uint64 data.

(** The characters of a C string: those before the first NUL. *)
Fixpoint c_str (s : string) : string :=
  match s with
  | EmptyString => EmptyString
  | String c s' => if Ascii.eqb c zero then EmptyString else String c (c_str s')
  end.

(** The [strlen(s) + 1] bytes at a [const char * ], terminator included. *)
Definition c_string_bytes (s : string) : list byte :=
  list_byte_of_string (c_str s) ++ [Byte.x00].

(** The C string read at [data]; it has to end inside the buffer. *)
Fixpoint c_str_at (data : list byte) : option string :=
  match data with
  | [] => None
  | b :: data' =>
      if Byte.eqb b Byte.x00 then Some EmptyString
      else String (ascii_of_byte b) <$> c_str_at data'
  end.

(** ** The configuration container *)

Inductive config_type := STRING | INT64 | UINT64 | DOUBLE | DATA | OBJECT.

Global Instance config_type_eq_dec : EqDecision config_type.
Proof. solve_decision. Defined.

(** A [void ( * )(void * )]: the library's own [pmemkv_config_delete], or a
    function of the caller's, known by its address. *)
Inductive deleter_fn :=
| fn_pmemkv_config_delete
| fn_extern (addr : Z).

Global Instance deleter_fn_eq_dec : EqDecision deleter_fn.
Proof. solve_decision. Defined.

Record entry := {
  value : list byte;
  deleter : option deleter_fn;
  type : config_type
}.

Record pmemkv_config := { umap : gmap string entry }.

(** ** The state the front end works on

    [configs] are the live containers by address, [errormsg] is the
    last-error slot and [deleter_calls] the calls made so far through
    deleter pointers, oldest first. *)

Record world := {
  configs : gmap Z pmemkv_config;
  errormsg : string;
  deleter_calls : list (deleter_fn * Z)
}.

Definition set_configs (f : gmap Z pmemkv_config → gmap Z pmemkv_config) (w : world) : world :=
  {| configs := f (configs w); errormsg := errormsg w; deleter_calls := deleter_calls w |}.

Definition set_errormsg (msg : string) (w : world) : world :=
  {| configs := configs w; errormsg := msg; deleter_calls := deleter_calls w |}.

Definition log_deleter_call (d : deleter_fn) (object : Z) (w : world) : world :=
  {| configs := configs w; errormsg := errormsg w;
     deleter_calls := deleter_calls w ++ [(d, object)] |}.

(** ** Computations: state, C++ exceptions, undefined behaviour *)

Inductive exn :=
| std_exception (what : string)
| foreign_exception.

Inductive answer (A : Type) :=
| val (a : A) (w : world)
| exc (e : exn) (w : world)
| undef.
Arguments val {A} a w.
Arguments exc {A} e w.
Arguments undef {A}.

Definition M (A : Type) : Type := world → answer A.

Definition ret {A} (a : A) : M A := λ w, val a w.

Definition bind {A B} (m : M A) (k : A → M B) : M B :=
  λ w, match m w with
       | val a w' => k a w'
       | exc e w' => exc e w'
       | undef => undef
       end.

Definition throw {A} (e : exn) : M A := λ w, exc e w.
Definition runtime_error {A} (what : string) : M A := throw (std_exception what).
Definition undefined {A} : M A := λ _, undef.

Definition modify (f : world → world) : M unit := λ w, val tt (f w).
Definition gets {A} (f : world → A) : M A := λ w, val (f w) w.
Definition of_option {A} (o : option A) : M A :=
  match o with Some a => ret a | None => undefined end.

(** [try { body } catch (const std::exception &exc) { on_std exc.what() }]
    with, when [on_other] is given, a further [catch (...)]. *)
Definition try_catch {A} (body : M A) (on_std : string → M A)
    (on_other : option (M A)) : M A :=
  λ w, match body w with
       | exc (std_exception what) w' => on_std what w'
       | exc foreign_exception w' =>
           match on_other with
           | Some h => h w'
           | None => exc foreign_exception w'
           end
       | r => r
       end.

Declare Scope cpp_scope.
Delimit Scope cpp_scope with cpp.
Notation "x <- m ;; k" := (bind m (λ x, k))
  (at level 100, m at next level, right associativity) : cpp_scope.
Notation "m ;; k" := (bind m (λ _, k))
  (at level 100, right associativity) : cpp_scope.
Local Open Scope cpp_scope.

(** [ERR() << msg] (out.h). *)
Definition ERR (msg : string) : M unit := modify (set_errormsg msg).

(** Dereferencing a [pmemkv_config * ]: the container must be live. *)
Definition deref (config : Z) : M pmemkv_config :=
  w <- gets configs ;; of_option (w !! config).

Definition store (config : Z) (c : pmemkv_config) : M unit :=
  modify (set_configs <[config := c]>).

(** [std::unordered_map::insert]: nothing happens when the key is there. *)
Definition umap_insert (key : string) (e : entry) (m : gmap string entry) : gmap string entry :=
  match m !! key with
  | Some _ => m
  | None => <[key := e]> m
  end.

(** [new pmemkv_config]: some address that is neither null nor in use.
    The [catch (...)] arm returning [nullptr] serves [std::bad_alloc]. *)
Definition pmemkv_config_new : M (option Z) :=
  live <- gets (λ w, dom (configs w)) ;;
  let p := fresh ({[0]} ∪ live : gset Z) in
  store p {| umap := ∅ |} ;;
  ret (Some p).

(** The [catch (...)] arm returning [PMEMKV_STATUS_FAILED] serves
    [std::bad_alloc]; [insert] itself reports a key that is already there
    through its return value, which is dropped. *)
Definition pmemkv_config_put (config : Z) (key : string) (value : list byte)
    (type : config_type) : M status :=
  c <- deref config ;;
  let mkey := c_str key in
  store config {| umap := umap_insert mkey
                    {| value := value; deleter := None; type := type |} (umap c) |} ;;
  ret PMEMKV_STATUS_OK.

(** The out-parameters [value], [value_size] and [type] are returned
    together; each caller uses the ones it passed a pointer for. The
    [catch (...)] arm returning [PMEMKV_STATUS_FAILED] serves
    [std::bad_alloc] from the [std::string] built of [key]. *)
Definition pmemkv_config_get (config : Z) (key : string)
    : M (status * option (list byte * nat * config_type)) :=
  c <- deref config ;;
  match umap c !! c_str key with
  | None => ret (PMEMKV_STATUS_NOT_FOUND, None)
  | Some found =>
      let mvalue := value found in
      ret (PMEMKV_STATUS_OK, Some (mvalue, length mvalue, type found))
  end.

Definition pmemkv_config_put_data (config : Z) (key : string) (value : list byte) : M status :=
  pmemkv_config_put config key value DATA.

Definition pmemkv_config_put_object (config : Z) (key : string) (value : Z)
    (deleter : option deleter_fn) : M status :=
  c <- deref config ;;
  let mkey := c_str key in
  let v := le_split sizeof_ptr value in
  store config {| umap := umap_insert mkey
                    {| value := v; deleter := deleter; type := OBJECT |} (umap c) |} ;;
  ret PMEMKV_STATUS_OK.

Definition pmemkv_config_put_int64 (config : Z) (key : string) (value : Z) : M status :=
  pmemkv_config_put config key (bytes_of_int value) INT64.

Definition pmemkv_config_put_uint64 (config : Z) (key : string) (value : Z) : M status :=
  pmemkv_config_put config key (bytes_of_int value) UINT64.

(** A [double] is carried as its IEEE 754 bit pattern. *)
Definition pmemkv_config_put_double (config : Z) (key : string) (value : Z) : M status :=
  pmemkv_config_put config key (bytes_of_int value) DOUBLE.

Definition pmemkv_config_put_string (config : Z) (key : string) (value : string) : M status :=
  pmemkv_config_put config key (c_string_bytes value) STRING.

Definition pmemkv_config_get_data (config : Z) (key : string)
    : M (status * option (list byte * nat)) :=
  r <- pmemkv_config_get config key ;;
  match r with
  | (status, Some (value, value_size, _)) => ret (status, Some (value, value_size))
  | (status, None) => ret (status, None)
  end.

(** [memcpy(value, ptr_ptr, sizeof(value))]: the eight bytes behind
    [ptr_ptr] become the caller's pointer. When the key is absent
    [ptr_ptr] was never assigned and the copy reads through an
    indeterminate pointer. *)
Definition pmemkv_config_get_object (config : Z) (key : string)
    : M (status * option Z) :=
  r <- pmemkv_config_get config key ;;
  match r with
  | (status, Some (ptr_ptr, size, _)) =>
      if decide (status = PMEMKV_STATUS_OK ∧ size ≠ sizeof_ptr)
      then ret (PMEMKV_STATUS_CONFIG_TYPE_ERROR, None)
      else
        object <- of_option (load_uint64 ptr_ptr) ;;
        ret (status, Some object)
  | (_, None) => undefined
  end.

Definition pmemkv_config_get_int64 (config : Z) (key : string)
    : M (status * option Z) :=
  r <- pmemkv_config_get config key ;;
  match r with
  | (PMEMKV_STATUS_OK, Some (data, _, type)) =>
      match type with
      | INT64 =>
          v <- of_option (load_int64 data) ;;
          ret (PMEMKV_STATUS_OK, Some v)
      | UINT64 =>
          (* conversion from uint64 allowed *)
          uval <- of_option (load_uint64 data) ;;
          if decide (uval < INT64_MAX) then
            v <- of_option (load_int64 data) ;;
            ret (PMEMKV_STATUS_OK, Some v)
          else ret (PMEMKV_STATUS_CONFIG_TYPE_ERROR, None)
      | _ => ret (PMEMKV_STATUS_CONFIG_TYPE_ERROR, None)
      end
  | (status, _) => ret (status, None)
  end.

Definition pmemkv_config_get_uint64 (config : Z) (key : string)
    : M (status * option Z) :=
  r <- pmemkv_config_get config key ;;
  match r with
  | (PMEMKV_STATUS_OK, Some (data, _, type)) =>
      match type with
      | UINT64 =>
          v <- of_option (load_uint64 data) ;;
          ret (PMEMKV_STATUS_OK, Some v)
      | INT64 =>
          (* conversion from int64 allowed *)
          sval <- of_option (load_int64 data) ;;
          if decide (sval >= 0) then
            v <- of_option (load_uint64 data) ;;
            ret (PMEMKV_STATUS_OK, Some v)
          else ret (PMEMKV_STATUS_CONFIG_TYPE_ERROR, None)
      | _ => ret (PMEMKV_STATUS_CONFIG_TYPE_ERROR, None)
      end
  | (status, _) => ret (status, None)
  end.

Definition pmemkv_config_get_double (config : Z) (key : string)
    : M (status * option Z) :=
  r <- pmemkv_config_get config key ;;
  match r with
  | (PMEMKV_STATUS_OK, Some (data, _, type)) =>
      if decide (type ≠ DOUBLE) then ret (PMEMKV_STATUS_CONFIG_TYPE_ERROR, None)
      else
        v <- of_option (load_uint64 data) ;;
        ret (PMEMKV_STATUS_OK, Some v)
  | (status, _) => ret (status, None)
  end.

(** [*value = (const char * )data]: the caller receives a pointer to the
    stored bytes and reads a C string there. *)
Definition pmemkv_config_get_string (config : Z) (key : string)
    : M (status * option (list byte)) :=
  r <- pmemkv_config_get config key ;;
  match r with
  | (PMEMKV_STATUS_OK, Some (data, _, type)) =>
      if decide (type ≠ STRING) then ret (PMEMKV_STATUS_CONFIG_TYPE_ERROR, None)
      else ret (PMEMKV_STATUS_OK, Some data)
  | (status, _) => ret (status, None)
  end.

(** [memcpy(&object, data, size)] into a pointer-sized local: a vector of
    another size either overruns [object] or leaves part of it
    indeterminate; [pmemkv_config_put_object] always stores
    [sizeof(void * )] bytes. *)
Definition memcpy_object (value : list byte) : option Z :=
  if decide (length value = sizeof_ptr) then Some (le_combine value) else None.

(** A call through a deleter pointer. The call is recorded with its
    argument; the callee is not run. For a deleter of the caller's that
    is all this function does. When the deleter is the library's own
    [pmemkv_config_delete], which JSON ingestion installs for a nested
    object, the callee is the function below run on the container
    [object] points to: the record of the call stands for that nested
    destruction, which is not unfolded here, so the sub-container stays
    in [configs] and the calls made for its own entries are not
    recorded. What is proved of destruction is therefore stated for
    containers whose deleters are all the caller's
    ([callers_deleters]). *)
Definition call_deleter (d : deleter_fn) (object : Z) : M unit :=
  modify (log_deleter_call d object).

Definition delete_item (item : string * entry) : M unit :=
  if decide (type item.2 = OBJECT) then
    object <- of_option (memcpy_object (value item.2)) ;;
    match deleter item.2 with
    | Some d => call_deleter d object
    | None => ret tt
    end
  else ret tt.

Fixpoint for_each {A} (body : A → M unit) (l : list A) : M unit :=
  match l with
  | [] => ret tt
  | x :: l' => body x ;; for_each body l'
  end.

(** The loop visits the entries in the order of the hash table, which
    the language leaves open; [map_to_list] stands for one such order. *)
Definition pmemkv_config_delete (config : Z) : M unit :=
  c <- deref config ;;
  for_each delete_item (map_to_list (umap c)) ;;
  modify (set_configs (delete config)).

(** ** JSON ingestion

    The node tree of rapidjson. A number is an integer literal within
    [int64_t] or [uint64_t], or a double. *)

Inductive Number :=
| Integer (v : Z)
| Double (bits : Z).

#[warnings="-register-all"]
Inductive Value :=
| VNull
| VFalse
| VTrue
| VObject (members : list (string * Value))
| VArray (elements : list Value)
| VString (s : string)
| VNumber (n : Number).

Definition IsString (v : Value) : bool := match v with VString _ => true | _ => false end.
Definition IsNumber (v : Value) : bool := match v with VNumber _ => true | _ => false end.
Definition IsObject (v : Value) : bool := match v with VObject _ => true | _ => false end.
Definition IsTrue (v : Value) : bool := match v with VTrue => true | _ => false end.
Definition IsFalse (v : Value) : bool := match v with VFalse => true | _ => false end.
Definition IsInt64 (v : Value) : bool :=
  match v with
  | VNumber (Integer n) => (INT64_MIN <=? n) && (n <=? INT64_MAX)
  | _ => false
  end.
Definition IsDouble (v : Value) : bool :=
  match v with VNumber (Double _) => true | _ => false end.

(** [kNullType] = 0, ..., [kNumberType] = 6. *)
Definition GetType (v : Value) : nat :=
  match v with
  | VNull => 0 | VFalse => 1 | VTrue => 2 | VObject _ => 3
  | VArray _ => 4 | VString _ => 5 | VNumber _ => 6
  end%nat.

Definition kTypeNames : list string :=
  ["Null"; "False"; "True"; "Object"; "Array"; "String"; "Number"]%string.

(** [doc.FindMember(name)]: the first member of that name. *)
Definition FindMember (name : string) (members : list (string * Value)) : option Value :=
  snd <$> find (λ m, String.eqb m.1 name) members.

Definition HasMember (name : string) (members : list (string * Value)) : bool :=
  match FindMember name members with Some _ => true | None => false end.

(** [doc[name]], used behind [HasMember] only. *)
Definition member (name : string) (members : list (string * Value)) : Value :=
  default VNull (FindMember name members).

(** One turn of the loop over the members. [Some s] is [return s];
    [None] goes on to the next member. [from_json sub_cfg] stands for
    [pmemkv_config_from_json(sub_cfg, sb.GetString())], the ingestion of
    this member's own value written out and parsed again. *)
Definition ingest_member (from_json : Z → M status) (config : Z)
    (name : string) (value : Value) : M (option status) :=
  if IsString value then
    match value with
    | VString s =>
        status <- pmemkv_config_put_string config name s ;;
        if decide (status ≠ PMEMKV_STATUS_OK)
        then runtime_error "Inserting string to the config failed"
        else ret None
    | _ => undefined
    end
  else if IsInt64 value then
    match value with
    | VNumber (Integer n) =>
        status <- pmemkv_config_put_int64 config name n ;;
        if decide (status ≠ PMEMKV_STATUS_OK)
        then runtime_error "Inserting int to the config failed"
        else ret None
    | _ => undefined
    end
  else if IsDouble value then
    match value with
    | VNumber (Double bits) =>
        status <- pmemkv_config_put_double config name bits ;;
        if decide (status ≠ PMEMKV_STATUS_OK)
        then runtime_error "Inserting double to the config failed"
        else ret None
    | _ => undefined
    end
  else if IsTrue value || IsFalse value then
    let value := if IsTrue value then 1 else 0 in
    status <- pmemkv_config_put_int64 config name value ;;
    if decide (status ≠ PMEMKV_STATUS_OK)
    then runtime_error "Inserting bool to the config failed"
    else ret None
  else if IsObject value then
    sub_cfg <- pmemkv_config_new ;;
    match sub_cfg with
    | None =>
        ERR "Cannot allocate subconfig" ;;
        ret (Some PMEMKV_STATUS_FAILED)
    | Some sub_cfg =>
        status <- from_json sub_cfg ;;
        if decide (status ≠ PMEMKV_STATUS_OK) then
          pmemkv_config_delete sub_cfg ;;
          runtime_error "Cannot parse subconfig"
        else
          status <- pmemkv_config_put_object config name sub_cfg
                      (Some fn_pmemkv_config_delete) ;;
          if decide (status ≠ PMEMKV_STATUS_OK)
          then runtime_error "Inserting a new entry to the config failed"
          else ret None
    end
  else
    runtime_error ("Unsupported data type in JSON string: " +:+
                   nth (GetType value) kTypeNames ""%string).

Section members.
(** [for (itr = doc.MemberBegin(); itr != doc.MemberEnd(); ++itr)],
    left by a [return] in the body. *)
Variable body : string → Value → M (option status).

Fixpoint for_members (itr : list (string * Value)) : M (option status) :=
  match itr with
  | [] => ret None
  | (name, value) :: itr' =>
      r <- body name value ;;
      match r with
      | Some status => ret (Some status)
      | None => for_members itr'
      end
  end.
End members.

(** The body of [pmemkv_config_from_json] once [doc.Parse(json)] has
    succeeded. [HasMember] and [MemberBegin] are for objects only. The
    nested call receives the member's value itself: what rapidjson's
    [Writer] prints, its parser reads back. *)
Fixpoint from_json_document (doc : Value) (config : Z) {struct doc} : M status :=
  match doc with
  | VObject members =>
      try_catch
        ((if HasMember "path" members && negb (IsString (member "path" members))
          then runtime_error "'path' in JSON is not a valid string"
          else if HasMember "size" members && negb (IsNumber (member "size" members))
          then runtime_error "'size' in JSON is not a valid number"
          else ret tt) ;;
         r <- for_members
                (λ name value, ingest_member (from_json_document value) config name value)
                members ;;
         match r with
         | Some status => ret status
         | None => ret PMEMKV_STATUS_OK
         end)
        (λ what, ERR what ;; ret PMEMKV_STATUS_CONFIG_PARSING_ERROR)
        (Some (ERR "Unspecified failure" ;; ret PMEMKV_STATUS_CONFIG_PARSING_ERROR))
  | _ => undefined
  end.

Section json.
(** [doc.Parse(json)]: the node tree, or [None] on a parse error.
    [assert(config && json)] is the caller's obligation. *)
Variable Parse : string → option Value.

Definition pmemkv_config_from_json (config : Z) (json : string) : M status :=
  match Parse json with
  | None => ret PMEMKV_STATUS_CONFIG_PARSING_ERROR
  | Some doc => from_json_document doc config
  end.
End json.

(** ** Engines (engine.h)

    The engines are separate translation units. An [engine_base] value
    tells how the object behind a [pmemkv_db] handle answers the next
    call of each method: what it returns or throws, what it stores
    through [cnt], and which values it hands to the value callback of
    [get]. Key-value callbacks and their [arg] are passed on as the
    addresses they are. *)

Inductive outcome (A : Type) :=
| returns (a : A)
| throws (e : exn).
Arguments returns {A} a.
Arguments throws {A} e.

Definition call {A} (o : outcome A) : M A :=
  match o with
  | returns a => ret a
  | throws e => throw e
  end.

Record engine_base := {
  count_all : option nat * outcome status;
  count_above : list byte → option nat * outcome status;
  count_below : list byte → option nat * outcome status;
  count_between : list byte → list byte → option nat * outcome status;
  get_all : Z → Z → outcome status;
  get_above : list byte → Z → Z → outcome status;
  get_below : list byte → Z → Z → outcome status;
  get_between : list byte → list byte → Z → Z → outcome status;
  exists_ : list byte → outcome status;
  get : list byte → list (list byte) * outcome status;
  put : list byte → list byte → outcome status;
  remove : list byte → outcome status
}.

(** ** Engine dispatch *)

Inductive engine_ctor :=
| new_blackhole
| new_caching (config : option Z)
| new_tree3 (path : string) (size : Z)
| new_stree (path : string) (size : Z)
| new_cmap (path : string) (size : Z)
| new_vsmap (path : string) (size : Z)
| new_vcmap (path : string) (size : Z).

Record build := {
  ENGINE_VSMAP : bool;
  ENGINE_VCMAP : bool;
  ENGINE_CMAP : bool;
  ENGINE_CACHING : bool;
  ENGINE_STREE : bool;
  ENGINE_TREE3 : bool
}.

Section open.
(** The engines compiled in, the file system as [stat] and [S_ISDIR]
    see it, and the constructors of the engines. *)
Variable defined : build.
Variable is_directory : string → bool.
Variable new : engine_ctor → M engine_base.

(** [db] is [None] for a null [pmemkv_db ** ], else the handle it
    points to; the handle after the call is returned with the status. *)
Definition pmemkv_open (engine_c_str : string) (config : option Z)
    (db : option (option engine_base)) : M (status * option (option engine_base)) :=
  match db with
  | None => ret (PMEMKV_STATUS_INVALID_ARGUMENT, None)
  | Some db0 =>
      let opened (c : engine_ctor) : M (status * option (option engine_base)) :=
        e <- new c ;; ret (PMEMKV_STATUS_OK, Some (Some e)) in
      try_catch
        (let engine := c_str engine_c_str in
         if String.eqb engine "blackhole" then opened new_blackhole
         else if ENGINE_CACHING defined && String.eqb engine "caching"
         then opened (new_caching config)
         else
         match config with
         | None =>
             ERR "Config pointer is null" ;;
             ret (PMEMKV_STATUS_INVALID_ARGUMENT, Some db0)
         | Some config =>
             (* handle traditional engines expecting path & size params *)
             r <- pmemkv_config_get_string config "path" ;;
             let '(status, path) := r in
             if decide (status ≠ PMEMKV_STATUS_OK)
             then runtime_error "JSON does not contain a valid path string"
             else
             r <- pmemkv_config_get_uint64 config "size" ;;
             let '(status, size) := r in
             if decide (status ≠ PMEMKV_STATUS_OK)
             then runtime_error "Cannot get 'size' from the config"
             else
             let path := path ≫= c_str_at in
             let size := default 0 size in
             if ENGINE_TREE3 defined && String.eqb engine "tree3"
             then path <- of_option path ;; opened (new_tree3 path size)
             else if ENGINE_STREE defined && String.eqb engine "stree"
             then path <- of_option path ;; opened (new_stree path size)
             else if ENGINE_CMAP defined && String.eqb engine "cmap"
             then path <- of_option path ;; opened (new_cmap path size)
             else
             (if ENGINE_VSMAP defined || ENGINE_VCMAP defined then
                path <- of_option path ;;
                if negb (is_directory path)
                then runtime_error "Config path is not an existing directory"
                else ret tt
              else ret tt) ;;
             if ENGINE_VSMAP defined && String.eqb engine "vsmap"
             then path <- of_option path ;; opened (new_vsmap path size)
             else if ENGINE_VCMAP defined && String.eqb engine "vcmap"
             then path <- of_option path ;; opened (new_vcmap path size)
             else runtime_error "Unknown engine name"
         end)
        (λ what, ERR what ;; ret (PMEMKV_STATUS_FAILED, Some None))
        (Some (ERR "Unspecified failure" ;; ret (PMEMKV_STATUS_FAILED, Some db0)))
  end.
End open.

(** ** Query facade

    [db] is the engine behind the handle. *)

Definition pmemkv_count_all (db : engine_base) : M (status * option nat) :=
  let '(cnt, r) := count_all db in
  try_catch (s <- call r ;; ret (s, cnt))
    (λ what, ERR what ;; ret (PMEMKV_STATUS_FAILED, cnt))
    (Some (ERR "Unspecified failure" ;; ret (PMEMKV_STATUS_FAILED, cnt))).

Definition pmemkv_count_above (db : engine_base) (k : list byte) : M (status * option nat) :=
  let '(cnt, r) := count_above db k in
  try_catch (s <- call r ;; ret (s, cnt))
    (λ what, ERR what ;; ret (PMEMKV_STATUS_FAILED, cnt))
    (Some (ERR "Unspecified failure" ;; ret (PMEMKV_STATUS_FAILED, cnt))).

Definition pmemkv_count_below (db : engine_base) (k : list byte) : M (status * option nat) :=
  let '(cnt, r) := count_below db k in
  try_catch (s <- call r ;; ret (s, cnt))
    (λ what, ERR what ;; ret (PMEMKV_STATUS_FAILED, cnt))
    (Some (ERR "Unspecified failure" ;; ret (PMEMKV_STATUS_FAILED, cnt))).

Definition pmemkv_count_between (db : engine_base) (k1 k2 : list byte)
    : M (status * option nat) :=
  let '(cnt, r) := count_between db k1 k2 in
  try_catch (s <- call r ;; ret (s, cnt))
    (λ what, ERR what ;; ret (PMEMKV_STATUS_FAILED, cnt))
    (Some (ERR "Unspecified failure" ;; ret (PMEMKV_STATUS_FAILED, cnt))).

Definition pmemkv_get_all (db : engine_base) (c arg : Z) : M status :=
  try_catch (call (get_all db c arg))
    (λ what, ERR what ;; ret PMEMKV_STATUS_FAILED)
    (Some (ERR "Unspecified failure" ;; ret PMEMKV_STATUS_FAILED)).

Definition pmemkv_get_above (db : engine_base) (k : list byte) (c arg : Z) : M status :=
  try_catch (call (get_above db k c arg))
    (λ what, ERR what ;; ret PMEMKV_STATUS_FAILED)
    None.

Definition pmemkv_get_below (db : engine_base) (k : list byte) (c arg : Z) : M status :=
  try_catch (call (get_below db k c arg))
    (λ what, ERR what ;; ret PMEMKV_STATUS_FAILED)
    (Some (ERR "Unspecified failure" ;; ret PMEMKV_STATUS_FAILED)).

Definition pmemkv_get_between (db : engine_base) (k1 k2 : list byte) (c arg : Z) : M status :=
  try_catch (call (get_between db k1 k2 c arg))
    (λ what, ERR what ;; ret PMEMKV_STATUS_FAILED)
    (Some (ERR "Unspecified failure" ;; ret PMEMKV_STATUS_FAILED)).

Definition pmemkv_exists (db : engine_base) (k : list byte) : M status :=
  try_catch (call (exists_ db k))
    (λ what, ERR what ;; ret PMEMKV_STATUS_FAILED)
    (Some (ERR "Unspecified failure" ;; ret PMEMKV_STATUS_FAILED)).

(** The caller's callback [c] runs on what the engine hands out; the
    facade adds nothing to that. *)
Definition pmemkv_get (db : engine_base) (k : list byte) (c arg : Z) : M status :=
  try_catch (call (get db k).2)
    (λ what, ERR what ;; ret PMEMKV_STATUS_FAILED)
    (Some (ERR "Unspecified failure" ;; ret PMEMKV_STATUS_FAILED)).

(** [buffer] and [value_size] are [None] for null pointers, else the
    bytes of the caller's array and the [size_t] pointed to. *)
Record GetCopyCallbackContext := {
  result : status;
  buffer_size : nat;
  buffer : option (list byte);
  value_size : option nat
}.

(** [memset] and [memcpy] stay inside the destination (and the source). *)
Definition memset (dst : list byte) (c : byte) (n : nat) : option (list byte) :=
  if decide (n ≤ length dst)%nat then Some (replicate n c ++ drop n dst) else None.

Definition memcpy (dst src : list byte) (n : nat) : option (list byte) :=
  if decide (n ≤ length dst ∧ n ≤ length src)%nat
  then Some (take n src ++ drop n dst) else None.

Definition get_copy_callback (v : list byte) (c : GetCopyCallbackContext)
    : option GetCopyCallbackContext :=
  let vb := length v in
  let value_size' := match value_size c with Some _ => Some vb | None => None end in
  if decide (vb < buffer_size c)%nat then
    match buffer c with
    | Some dst =>
        dst' ← memcpy dst v vb;
        Some {| result := PMEMKV_STATUS_OK; buffer_size := buffer_size c;
                buffer := Some dst'; value_size := value_size' |}
    | None =>
        Some {| result := PMEMKV_STATUS_OK; buffer_size := buffer_size c;
                buffer := None; value_size := value_size' |}
    end
  else
    Some {| result := PMEMKV_STATUS_FAILED; buffer_size := buffer_size c;
            buffer := buffer c; value_size := value_size' |}.

(** The engine's [get] running with [get_copy_callback] and [ctx]. *)
Fixpoint run_callback (delivered : list (list byte)) (ctx : GetCopyCallbackContext)
    : option GetCopyCallbackContext :=
  match delivered with
  | [] => Some ctx
  | v :: rest => ctx' ← get_copy_callback v ctx; run_callback rest ctx'
  end.

(** The status comes with the caller's buffer and [size_t] as the call
    leaves them. *)
Definition leaving (ctx : GetCopyCallbackContext) (s : status)
    : status * option (list byte) * option nat :=
  (s, buffer ctx, value_size ctx).

Definition pmemkv_get_copy (db : engine_base) (k : list byte)
    (buffer : option (list byte)) (buffer_size : nat) (value_size : option nat)
    : M (status * option (list byte) * option nat) :=
  buffer <- match buffer with
            | Some dst => dst' <- of_option (memset dst Byte.x00 buffer_size) ;; ret (Some dst')
            | None => ret None
            end ;;
  let ctx := {| result := PMEMKV_STATUS_NOT_FOUND; buffer_size := buffer_size;
                buffer := buffer; value_size := value_size |} in
  let '(delivered, r) := get db k in
  ctx <- of_option (run_callback delivered ctx) ;;
  try_catch (call r ;; ret (leaving ctx (result ctx)))
    (λ what, ERR what ;; ret (leaving ctx PMEMKV_STATUS_FAILED))
    (Some (ERR "Unspecified failure" ;; ret (leaving ctx PMEMKV_STATUS_FAILED))).

Definition pmemkv_put (db : engine_base) (k v : list byte) : M status :=
  try_catch (call (put db k v))
    (λ what, ERR what ;; ret PMEMKV_STATUS_FAILED)
    (Some (ERR "Unspecified failure" ;; ret PMEMKV_STATUS_FAILED)).

Definition pmemkv_remove (db : engine_base) (k : list byte) : M status :=
  try_catch (call (remove db k))
    (λ what, ERR what ;; ret PMEMKV_STATUS_FAILED)
    (Some (ERR "Unspecified failure" ;; ret PMEMKV_STATUS_FAILED)).

Definition pmemkv_errormsg : M string := gets errormsg.

Section close.
(** [delete reinterpret_cast<pmem::kv::engine_base * >(db)]: what the
    destructor of the engine behind the handle does. *)
Variable destroy : engine_base → outcome unit.

Definition pmemkv_close (db : engine_base) : M unit :=
  try_catch (call (destroy db))
    (λ what, ERR what)
    (Some (ERR "Unspecified failure")).
End close.

(** * Vocabulary of the properties *)

(** What the six typed puts are given. *)
Inductive typed_value :=
| of_int64 (v : Z)
| of_uint64 (v : Z)
| of_double (bits : Z)
| of_string (s : string)
| of_data (bytes : list byte)
| of_object (object : Z) (deleter : option deleter_fn).

(** The values the C types of the arguments admit. *)
Definition in_range (tv : typed_value) : Prop :=
  match tv with
  | of_int64 v => INT64_MIN <= v <= INT64_MAX
  | of_uint64 v | of_double v | of_object v _ => 0 <= v <= UINT64_MAX
  | of_string _ | of_data _ => True
  end.

Definition typed_put (config : Z) (key : string) (tv : typed_value) : M status :=
  match tv with
  | of_int64 v => pmemkv_config_put_int64 config key v
  | of_uint64 v => pmemkv_config_put_uint64 config key v
  | of_double bits => pmemkv_config_put_double config key bits
  | of_string s => pmemkv_config_put_string config key s
  | of_data bytes => pmemkv_config_put_data config key bytes
  | of_object object deleter => pmemkv_config_put_object config key object deleter
  end.

(** What the caller holds after a getter has returned. *)
Inductive got :=
| got_int64 (v : Z)
| got_uint64 (v : Z)
| got_double (bits : Z)
| got_string (s : option string)
| got_data (bytes : list byte) (size : nat)
| got_object (object : Z).

(** The getter of the same type as [tv]. *)
Definition matching_get (tv : typed_value) (config : Z) (key : string)
    : M (status * option got) :=
  match tv with
  | of_int64 _ => r <- pmemkv_config_get_int64 config key ;; ret (r.1, got_int64 <$> r.2)
  | of_uint64 _ => r <- pmemkv_config_get_uint64 config key ;; ret (r.1, got_uint64 <$> r.2)
  | of_double _ => r <- pmemkv_config_get_double config key ;; ret (r.1, got_double <$> r.2)
  | of_string _ =>
      r <- pmemkv_config_get_string config key ;;
      ret (r.1, (λ data, got_string (c_str_at data)) <$> r.2)
  | of_data _ =>
      r <- pmemkv_config_get_data config key ;;
      ret (r.1, (λ d, got_data d.1 d.2) <$> r.2)
  | of_object _ _ => r <- pmemkv_config_get_object config key ;; ret (r.1, got_object <$> r.2)
  end.

(** The value put, as the matching getter should hand it back. *)
Definition original (tv : typed_value) : got :=
  match tv with
  | of_int64 v => got_int64 v
  | of_uint64 v => got_uint64 v
  | of_double bits => got_double bits
  | of_string s => got_string (Some (c_str s))
  | of_data bytes => got_data bytes (length bytes)
  | of_object object _ => got_object object
  end.

(** The entry a typed put builds. *)
Definition entry_of (tv : typed_value) : entry :=
  match tv with
  | of_int64 v => {| value := bytes_of_int v; deleter := None; type := INT64 |}
  | of_uint64 v => {| value := bytes_of_int v; deleter := None; type := UINT64 |}
  | of_double bits => {| value := bytes_of_int bits; deleter := None; type := DOUBLE |}
  | of_string s =>
      {| value := c_string_bytes s; deleter := None; type := STRING |}
  | of_data bytes => {| value := bytes; deleter := None; type := DATA |}
  | of_object object deleter =>
      {| value := le_split sizeof_ptr object; deleter := deleter; type := OBJECT |}
  end.

Definition with_entry (config : Z) (c : pmemkv_config) (key : string) (e : entry)
    (w : world) : world :=
  set_configs <[config := {| umap := umap_insert (c_str key) e (umap c) |}]> w.

(** A world with one empty container, at address 16. *)
Definition one_container : world :=
  {| configs := {[ 16 := {| umap := ∅ |} ]}; errormsg := ""; deleter_calls := [] |}.

(** A container holding [UInt64] entries at and just below [Int64::MAX],
    and [Int64] entries 0 and -1. *)
Definition boundary_container : pmemkv_config :=
  {| umap := {[ "max"%string := entry_of (of_uint64 INT64_MAX);
                "below"%string := entry_of (of_uint64 (INT64_MAX - 1));
                "zero"%string := entry_of (of_int64 0);
                "minus"%string := entry_of (of_int64 (-1)) ]} |}.

Definition boundary_world : world :=
  {| configs := {[ 16 := boundary_container ]}; errormsg := ""; deleter_calls := [] |}.

(** The container of [one_container] after
    [pmemkv_config_put_int64(config, "k", 5)]. *)
Definition int64_entry_world : world :=
  with_entry 16 {| umap := ∅ |} "k" (entry_of (of_int64 5)) one_container.

(** The call an entry is owed when its container goes: none unless it is
    an [Object] entry with a deleter. *)
Definition owes (e : entry) : option (deleter_fn * Z) :=
  match type e, deleter e with
  | OBJECT, Some d => Some (d, le_combine (value e))
  | _, _ => None
  end.

(** One call for each entry that is owed one. *)
Definition destructor_obligations (c : pmemkv_config) : list (deleter_fn * Z) :=
  omap (λ item : string * entry, owes item.2) (map_to_list (umap c)).

(** No entry has the library's own destructor as its deleter: the
    container holds no nested container to destroy with it. *)
Definition callers_deleters (c : pmemkv_config) : Prop :=
  ∀ key e, umap c !! key = Some e → deleter e ≠ Some fn_pmemkv_config_delete.

(** Every [Object] entry holds a pointer's worth of bytes. *)
Definition objects_sized (c : pmemkv_config) : Prop :=
  ∀ key e, umap c !! key = Some e → type e = OBJECT → length (value e) = sizeof_ptr.

Definition calling (calls : list (deleter_fn * Z)) (w : world) : world :=
  {| configs := configs w; errormsg := errormsg w;
     deleter_calls := deleter_calls w ++ calls |}.

(** An object with a deleter, an object without, and an integer. *)
Definition object_container : pmemkv_config :=
  {| umap := {[ "owned"%string := entry_of (of_object 4096 (Some (fn_extern 7)));
                "borrowed"%string := entry_of (of_object 8192 None);
                "n"%string := entry_of (of_int64 3) ]} |}.

Definition object_world : world :=
  {| configs := {[ 16 := object_container ]}; errormsg := ""; deleter_calls := [] |}.

(** An engine that answers every call alike: it hands [delivered] to the
    value callback of [get], stores no count, and completes with [r]. *)
Definition engine_answering (delivered : list (list byte)) (r : outcome status)
    : engine_base :=
  {| count_all := (None, r);
     count_above := λ _, (None, r);
     count_below := λ _, (None, r);
     count_between := λ _ _, (None, r);
     get_all := λ _ _, r;
     get_above := λ _ _ _, r;
     get_below := λ _ _ _, r;
     get_between := λ _ _ _ _, r;
     exists_ := λ _, r;
     get := λ _, (delivered, r);
     put := λ _ _, r;
     remove := λ _, r |}.

(** How the facade leaves the world once the engine's call has completed
    with a status or an exception. *)
Definition caught (r : outcome status) (w : world) : world :=
  match r with
  | returns _ => w
  | throws (std_exception what) => set_errormsg what w
  | throws foreign_exception => set_errormsg "Unspecified failure" w
  end.

Definition written (value_size : option nat) (vb : nat) : option nat :=
  match value_size with Some _ => Some vb | None => None end.

Definition hello : list byte := [Byte.x68; Byte.x65; Byte.x6c; Byte.x6c; Byte.x6f].

(** No exception leaves the computation. *)
Definition contained {A} (m : M A) : Prop := ∀ w e w', m w ≠ exc e w'.

(** Every entry is one that some typed put stores. This holds of an
    empty container and each typed put keeps it. *)
Definition built_by_puts (c : pmemkv_config) : Prop :=
  ∀ key e, umap c !! key = Some e → ∃ tv, in_range tv ∧ e = entry_of tv.

(** The names [pmemkv_open] has a branch for in this build. *)
Definition known_engine (defined : build) (engine : string) : bool :=
  String.eqb engine "blackhole"
  || ENGINE_CACHING defined && String.eqb engine "caching"
  || ENGINE_TREE3 defined && String.eqb engine "tree3"
  || ENGINE_STREE defined && String.eqb engine "stree"
  || ENGINE_CMAP defined && String.eqb engine "cmap"
  || ENGINE_VSMAP defined && String.eqb engine "vsmap"
  || ENGINE_VCMAP defined && String.eqb engine "vcmap".

(** What [pmemkv_config_get_string] on ["path"] and
    [pmemkv_config_get_uint64] on ["size"] give for a container built by
    puts. *)
Definition path_in (c : pmemkv_config) : option string :=
  e ← umap c !! "path"%string;
  if decide (type e = STRING) then c_str_at (value e) else None.

Definition size_in (c : pmemkv_config) : option Z :=
  e ← umap c !! "size"%string;
  match type e with
  | UINT64 => load_uint64 (value e)
  | INT64 => v ← load_int64 (value e); if decide (v >= 0) then Some v else None
  | _ => None
  end.

Section open_message.
Variable defined : build.
Variable is_directory : string → bool.

(** What [pmemkv_open] reports for a name it has no branch for. *)
Definition unknown_engine_message (c : pmemkv_config) : string :=
  match path_in c with
  | None => "JSON does not contain a valid path string"
  | Some path =>
      match size_in c with
      | None => "Cannot get 'size' from the config"
      | Some _ =>
          if (ENGINE_VSMAP defined || ENGINE_VCMAP defined) && negb (is_directory path)
          then "Config path is not an existing directory"
          else "Unknown engine name"
      end
  end.
End open_message.

(** A build with every engine, and one with none but blackhole. *)
Definition every_engine : build :=
  {| ENGINE_VSMAP := true; ENGINE_VCMAP := true; ENGINE_CMAP := true;
     ENGINE_CACHING := true; ENGINE_STREE := true; ENGINE_TREE3 := true |}.

Definition blackhole_only : build :=
  {| ENGINE_VSMAP := false; ENGINE_VCMAP := false; ENGINE_CMAP := false;
     ENGINE_CACHING := false; ENGINE_STREE := false; ENGINE_TREE3 := false |}.

(** Constructors that all succeed, with an engine that holds nothing. *)
Definition new_empty (_ : engine_ctor) : M engine_base :=
  ret (engine_answering [] (returns PMEMKV_STATUS_NOT_FOUND)).

(** A container with a path and a size, as the path-and-size engines
    want it. *)
Definition path_size_container : pmemkv_config :=
  {| umap := umap_insert "size" (entry_of (of_uint64 1024))
               (umap_insert "path" (entry_of (of_string "/dev/shm")) ∅) |}.

Definition path_size_world : world :=
  {| configs := {[ 16 := path_size_container ]}; errormsg := ""; deleter_calls := [] |}.

(** Induction on node trees that reaches the members of an object. *)
Section Value_members_ind.
Variable P : Value → Prop.
Hypothesis P_object : ∀ members, Forall (λ m : string * Value, P m.2) members →
                                  P (VObject members).
Hypothesis P_other : ∀ v, IsObject v = false → P v.

Fixpoint Value_members_ind (v : Value) : P v :=
  match v with
  | VObject members =>
      P_object members
        ((fix all (ms : list (string * Value)) : Forall (λ m, P m.2) ms :=
            match ms with
            | [] => List.Forall_nil _
            | m :: ms' => List.Forall_cons _ m ms' (Value_members_ind m.2) (all ms')
            end) members)
  | v' => P_other v' eq_refl
  end.
End Value_members_ind.

(** The kinds stored as a scalar entry. *)
Definition supported_scalar (v : Value) : bool :=
  IsString v || IsInt64 v || IsDouble v || IsTrue v || IsFalse v.

(** The kinds with no branch of their own: arrays, null, and integers
    beyond [int64_t]. *)
Definition unsupported (v : Value) : bool :=
  negb (supported_scalar v) && negb (IsObject v).

Definition unsupported_message (v : Value) : string :=
  "Unsupported data type in JSON string: " +:+ nth (GetType v) kTypeNames ""%string.

Section failures.
(** [diagnose value] is the failure of ingesting the object [value] into
    a container of its own, if there is one. *)
Variable diagnose : Value → option string.

(** The first failure met going through the members. *)
Fixpoint first_failure (itr : list (string * Value)) : option string :=
  match itr with
  | [] => None
  | (_, value) :: itr' =>
      if supported_scalar value then first_failure itr'
      else if IsObject value then
        match diagnose value with
        | Some _ => Some "Cannot parse subconfig"%string
        | None => first_failure itr'
        end
      else Some (unsupported_message value)
  end.
End failures.

(** What ingesting the document [doc] fails with, [None] when it goes
    through. *)
Fixpoint diagnosis (doc : Value) : option string :=
  match doc with
  | VObject members =>
      if HasMember "path" members && negb (IsString (member "path" members))
      then Some "'path' in JSON is not a valid string"%string
      else if HasMember "size" members && negb (IsNumber (member "size" members))
      then Some "'size' in JSON is not a valid number"%string
      else first_failure (λ value, diagnosis value) members
  | _ => None
  end.

Definition verdict (doc : Value) : status :=
  match diagnosis doc with
  | None => PMEMKV_STATUS_OK
  | Some _ => PMEMKV_STATUS_CONFIG_PARSING_ERROR
  end.

(** [needle] occurs in [hay]. *)
Fixpoint includes (needle hay : string) : bool :=
  String.prefix needle hay ||
  match hay with
  | EmptyString => false
  | String _ hay' => includes needle hay'
  end.

(** Going from [w] to [w'], the container at [config] is still live,
    with its objects sized if they were, and every other container of
    [w] is as it was. *)
Definition keeps (config : Z) (w w' : world) : Prop :=
  (∀ c, configs w !! config = Some c →
        ∃ c', configs w' !! config = Some c' ∧ (objects_sized c → objects_sized c')) ∧
  (∀ q c0, q ≠ config → configs w !! q = Some c0 → configs w' !! q = Some c0).

(** Ingesting [value] into a live container gives the verdict and the
    message of [diagnosis]. *)
Definition ingests (value : Value) : Prop :=
  ∀ config w c,
    configs w !! config = Some c →
    ∃ w', from_json_document value config w = val (verdict value) w' ∧
          errormsg w' = default (errormsg w) (diagnosis value) ∧
          keeps config w w'.

(** A member goes through when it is a supported scalar or an object
    that is ingested without failure. *)
Definition goes_through (m : string * Value) : Prop :=
  supported_scalar m.2 = true ∨ (IsObject m.2 = true ∧ diagnosis m.2 = None).

(** A name between double quotes, as JSON writes it. *)
Definition quoted (s : string) : string :=
  String "034"%char (s +:+ String "034"%char EmptyString).

Definition array_text : string := "{" +:+ quoted "a" +:+ ": [1,2,3]}".
Definition null_text : string := "{" +:+ quoted "a" +:+ ": null}".
Definition null_path_text : string := "{" +:+ quoted "path" +:+ ": null}".

(** What the parser makes of these three texts. *)
Definition parse_examples (json : string) : option Value :=
  snd <$> find (λ e : string * Value, String.eqb e.1 json)
    [ (array_text,
       VObject [("a"%string,
                 VArray [VNumber (Integer 1); VNumber (Integer 2); VNumber (Integer 3)])]);
      (null_text, VObject [("a"%string, VNull)]);
      (null_path_text, VObject [("path"%string, VNull)]) ].

(** The typed value a scalar JSON member is put as. *)
Definition scalar_of (v : Value) : option typed_value :=
  match v with
  | VString s => Some (of_string s)
  | VNumber (Integer n) => if IsInt64 v then Some (of_int64 n) else None
  | VNumber (Double bits) => Some (of_double bits)
  | VTrue => Some (of_int64 1)
  | VFalse => Some (of_int64 0)
  | _ => None
  end.

(** The entries of a container after the scalar members have been put,
    one after the other. *)
Definition put_members (members : list (string * Value)) (m : gmap string entry)
    : gmap string entry :=
  foldl (λ m (member : string * Value),
           match scalar_of member.2 with
           | Some tv => umap_insert (c_str member.1) (entry_of tv) m
           | None => m
           end) m members.

(** The world with the container at [config] holding the entries [m]. *)
Definition holding (config : Z) (m : gmap string entry) (w : world) : world :=
  set_configs <[config := {| umap := m |}]> w.

(** Three more texts and what the parser makes of them: settings with
    a path, a size and a flag; an array between two integers; an object
    in an object. *)
Definition settings_text : string :=
  "{" +:+ quoted "path" +:+ ": " +:+ quoted "/dev/shm" +:+ ", "
  +:+ quoted "size" +:+ ": 1024, " +:+ quoted "force" +:+ ": true}".

Definition settings_members : list (string * Value) :=
  [ ("path"%string, VString "/dev/shm");
    ("size"%string, VNumber (Integer 1024));
    ("force"%string, VTrue) ].

Definition interrupted_text : string :=
  "{" +:+ quoted "n" +:+ ": 5, " +:+ quoted "a" +:+ ": [1], " +:+ quoted "m" +:+ ": 6}".

Definition nested_text : string :=
  "{" +:+ quoted "a" +:+ ": {" +:+ quoted "b" +:+ ": 1}}".

Definition parse_more (json : string) : option Value :=
  snd <$> find (λ e : string * Value, String.eqb e.1 json)
    [ (settings_text, VObject settings_members);
      (interrupted_text,
       VObject [("n"%string, VNumber (Integer 5));
                ("a"%string, VArray [VNumber (Integer 1)]);
                ("m"%string, VNumber (Integer 6))]);
      (nested_text, VObject [("a"%string, VObject [("b"%string, VNumber (Integer 1))])]) ].

(** How [pmemkv_open] ends once it has called a constructor that ended
    as [r]: the new engine in the handle and [PMEMKV_STATUS_OK], or
    [PMEMKV_STATUS_FAILED] with the handle set to null for an exception
    of the standard hierarchy and left as it was, [db0], for any other. *)
Definition constructed (r : answer engine_base) (db0 : option engine_base)
    : answer (status * option (option engine_base)) :=
  match r with
  | val e w' => val (PMEMKV_STATUS_OK, Some (Some e)) w'
  | exc (std_exception what) w' =>
      val (PMEMKV_STATUS_FAILED, Some None) (set_errormsg what w')
  | exc foreign_exception w' =>
      val (PMEMKV_STATUS_FAILED, Some db0) (set_errormsg "Unspecified failure" w')
  | undef => undef
  end.

(** The constructor of the path-and-size engine of that name, if the
    build has one. *)
Definition path_size_engine (defined : build) (engine : string)
    : option (string → Z → engine_ctor) :=
  if ENGINE_TREE3 defined && String.eqb engine "tree3" then Some new_tree3
  else if ENGINE_STREE defined && String.eqb engine "stree" then Some new_stree
  else if ENGINE_CMAP defined && String.eqb engine "cmap" then Some new_cmap
  else if ENGINE_VSMAP defined && String.eqb engine "vsmap" then Some new_vsmap
  else if ENGINE_VCMAP defined && String.eqb engine "vcmap" then Some new_vcmap
  else None.

(** The engines that keep their data in a directory. *)
Definition wants_directory (engine : string) : bool :=
  String.eqb engine "vsmap" || String.eqb engine "vcmap".

Definition path_size_text : string :=
  "{" +:+ quoted "path" +:+ ": " +:+ quoted "/dev/shm" +:+ ", "
  +:+ quoted "size" +:+ ": 1024}".

Definition parse_path_size (json : string) : option Value :=
  if String.eqb json path_size_text
  then Some (VObject [("path"%string, VString "/dev/shm");
                      ("size"%string, VNumber (Integer 1024))])
  else None.

(** The status the facade returns once the engine's call has completed
    with a status or an exception. *)
Definition answered (r : outcome status) : status :=
  match r with
  | returns s => s
  | throws _ => PMEMKV_STATUS_FAILED
  end.

(** An operation followed by [pmemkv_errormsg]. *)
Definition then_errormsg {A} (op : M A) : M (A * string) :=
  s <- op ;; msg <- pmemkv_errormsg ;; ret (s, msg).




(** * Properties *)

(** ** Running the computations *)

Lemma bind_val {A B} (m : M A) (k : A → M B) w a w' :
  m w = val a w' → bind m k w = k a w'.
Proof. unfold bind. by intros ->. Qed.

Lemma deref_live w config c :
  configs w !! config = Some c → deref config w = val c w.
Proof. unfold deref, bind, gets, of_option. by intros ->. Qed.

Ltac run :=
  unfold bind, ret, throw, runtime_error, undefined, modify, gets, of_option,
    store, ERR, call, try_catch; cbn.

(** ** Object representations *)

Arguments load_uint64 : simpl never.
Arguments load_int64 : simpl never.
Arguments memcpy_object : simpl never.
Arguments bytes_of_int : simpl never.
Arguments c_str_at : simpl never.
Arguments c_string_bytes : simpl never.

Lemma length_bytes_of_int v : length (bytes_of_int v) = 8%nat.
Proof. apply length_le_split. Qed.

Lemma load_uint64_bytes_of_int v :
  load_uint64 (bytes_of_int v) = Some (v mod 2 ^ 64).
Proof.
  unfold load_uint64, bytes_of_int.
  rewrite length_le_split. case_decide; [|lia].
  rewrite take_ge by (rewrite length_le_split; lia).
  by rewrite le_combine_split.
Qed.

Lemma load_uint64_unsigned v :
  0 <= v <= UINT64_MAX → load_uint64 (bytes_of_int v) = Some v.
Proof.
  unfold UINT64_MAX. intros Hv.
  rewrite load_uint64_bytes_of_int, Z.mod_small; [done | lia].
Qed.

Lemma load_int64_bytes_of_int v :
  load_int64 (bytes_of_int v) = Some (to_int64 v).
Proof.
  unfold load_int64. rewrite load_uint64_bytes_of_int. simpl.
  unfold to_int64. by rewrite Z.mod_mod by lia.
Qed.

Lemma to_int64_signed v : INT64_MIN <= v <= INT64_MAX → to_int64 v = v.
Proof.
  unfold INT64_MIN, INT64_MAX, to_int64. intros Hv.
  destruct (decide (0 <= v)).
  - rewrite Z.mod_small by lia. case_match; lia.
  - replace (v mod 2 ^ 64) with (v + 2 ^ 64).
    + case_match; lia.
    + apply Z.mod_unique with (-1); lia.
Qed.

Lemma to_int64_small v : 0 <= v < 2 ^ 63 → to_int64 v = v.
Proof. intros. apply to_int64_signed. unfold INT64_MIN, INT64_MAX. lia. Qed.

Lemma load_int64_signed v :
  INT64_MIN <= v <= INT64_MAX → load_int64 (bytes_of_int v) = Some v.
Proof. intros. by rewrite load_int64_bytes_of_int, to_int64_signed. Qed.

(** The bit pattern of a signed value, as [uint64_t] sees it. *)
Lemma load_uint64_signed v :
  INT64_MIN <= v <= INT64_MAX →
  load_uint64 (bytes_of_int v) = Some (if decide (0 <= v) then v else v + 2 ^ 64).
Proof.
  unfold INT64_MIN, INT64_MAX. intros Hv. rewrite load_uint64_bytes_of_int. f_equal.
  case_decide.
  - apply Z.mod_small. lia.
  - symmetry. apply Z.mod_unique with (-1); lia.
Qed.

Lemma memcpy_object_pointer p :
  0 <= p <= UINT64_MAX → memcpy_object (le_split sizeof_ptr p) = Some p.
Proof.
  unfold memcpy_object, UINT64_MAX, sizeof_ptr. intros Hp.
  rewrite length_le_split. case_decide; [|done].
  rewrite le_combine_split, Z.mod_small; [done | lia].
Qed.

Lemma c_str_idemp s : c_str (c_str s) = c_str s.
Proof.
  induction s as [|c s IH]; [done|]. simpl.
  destruct (Ascii.eqb c zero) eqn:E; [done|]. simpl. by rewrite E, IH.
Qed.

Lemma byte_of_ascii_NUL c :
  Byte.eqb (byte_of_ascii c) Byte.x00 = Ascii.eqb c zero.
Proof.
  destruct (Ascii.eqb_spec c zero) as [->|Hne]; [done|].
  destruct (Byte.eqb (byte_of_ascii c) Byte.x00) eqn:E; [|done].
  apply Byte.byte_dec_bl in E. destruct Hne.
  by rewrite <- (ascii_of_byte_of_ascii c), E.
Qed.

Lemma c_str_at_cons b data :
  c_str_at (b :: data)
  = if Byte.eqb b Byte.x00 then Some EmptyString
    else String (ascii_of_byte b) <$> c_str_at data.
Proof. reflexivity. Qed.

(** The bytes [pmemkv_config_put_string] stores read back as the string. *)
Lemma c_str_at_stored s : c_str_at (c_string_bytes s) = Some (c_str s).
Proof.
  unfold c_string_bytes.
  induction s as [|c s IH]; [done|]. simpl.
  destruct (Ascii.eqb c zero) eqn:E; [done|].
  unfold list_byte_of_string in *. simpl.
  by rewrite c_str_at_cons, byte_of_ascii_NUL, E, IH, ascii_of_byte_of_ascii.
Qed.

(** ** The container: typed put and get *)

Lemma typed_put_live w config c key tv :
  configs w !! config = Some c →
  typed_put config key tv w = val PMEMKV_STATUS_OK (with_entry config c key (entry_of tv) w).
Proof.
  intros Hc.
  destruct tv; simpl;
    unfold pmemkv_config_put_int64, pmemkv_config_put_uint64, pmemkv_config_put_double,
      pmemkv_config_put_string, pmemkv_config_put_data, pmemkv_config_put,
      pmemkv_config_put_object;
    by rewrite (bind_val _ _ _ _ _ (deref_live _ _ _ Hc)).
Qed.

Lemma with_entry_lookup w config c key e :
  configs (with_entry config c key e w) !! config
  = Some {| umap := umap_insert (c_str key) e (umap c) |}.
Proof. unfold with_entry, set_configs. simpl. apply lookup_insert_eq. Qed.

Lemma umap_insert_fresh key e (m : gmap string entry) :
  m !! key = None → umap_insert key e m !! key = Some e.
Proof. unfold umap_insert. intros ->. apply lookup_insert_eq. Qed.

Lemma umap_insert_present key e e0 (m : gmap string entry) :
  m !! key = Some e0 → umap_insert key e m = m.
Proof. unfold umap_insert. by intros ->. Qed.

Lemma with_entry_present w config c key e e0 :
  configs w !! config = Some c →
  umap c !! c_str key = Some e0 →
  with_entry config c key e w = w.
Proof.
  intros Hc He. unfold with_entry, set_configs.
  rewrite (umap_insert_present _ _ _ _ He).
  destruct w as [cs msg calls], c as [m]. simpl in *. f_equal.
  by apply insert_id.
Qed.

Lemma pmemkv_config_get_found w config c key e :
  configs w !! config = Some c →
  umap c !! c_str key = Some e →
  pmemkv_config_get config key w
  = val (PMEMKV_STATUS_OK, Some (value e, length (value e), type e)) w.
Proof.
  intros Hc He. unfold pmemkv_config_get.
  rewrite (bind_val _ _ _ _ _ (deref_live _ _ _ Hc)). by rewrite He.
Qed.

Lemma pmemkv_config_get_absent w config c key :
  configs w !! config = Some c →
  umap c !! c_str key = None →
  pmemkv_config_get config key w = val (PMEMKV_STATUS_NOT_FOUND, None) w.
Proof.
  intros Hc He. unfold pmemkv_config_get.
  rewrite (bind_val _ _ _ _ _ (deref_live _ _ _ Hc)). by rewrite He.
Qed.

(** Round trip: the matching getter hands back what was put. *)
Lemma matching_get_entry_of w config c key tv :
  configs w !! config = Some c →
  umap c !! c_str key = Some (entry_of tv) →
  in_range tv →
  matching_get tv config key w = val (PMEMKV_STATUS_OK, Some (original tv)) w.
Proof.
  intros Hc He Hr.
  destruct tv; simpl in *;
    unfold pmemkv_config_get_int64, pmemkv_config_get_uint64, pmemkv_config_get_double,
      pmemkv_config_get_string, pmemkv_config_get_data, pmemkv_config_get_object, bind;
    rewrite (pmemkv_config_get_found _ _ _ _ _ Hc He); cbn.
  - by rewrite load_int64_signed.
  - by rewrite load_uint64_unsigned.
  - by rewrite load_uint64_unsigned.
  - case_decide; [done|]. run. by rewrite c_str_at_stored.
  - done.
  - rewrite length_le_split.
    change (le_split sizeof_ptr object) with (bytes_of_int object).
    rewrite load_uint64_unsigned by done.
    case_decide as Hd; [by destruct Hd | done].
Qed.

(** C1, as stated, fails: a second [pmemkv_config_put_int64] on the same
    key of the same container returns [PMEMKV_STATUS_OK], not
    [PMEMKV_STATUS_FAILED]. *)
Lemma second_put_is_not_refused :
  ∃ w1, pmemkv_config_put_int64 16 "k" 1 one_container = val PMEMKV_STATUS_OK w1 ∧
        pmemkv_config_put_int64 16 "k" 2 w1 = val PMEMKV_STATUS_OK w1 ∧
        ¬ ∃ w2, pmemkv_config_put_int64 16 "k" 2 w1 = val PMEMKV_STATUS_FAILED w2.
Proof.
  exists (with_entry 16 {| umap := ∅ |} "k" (entry_of (of_int64 1)) one_container).
  split; [by apply (typed_put_live one_container 16 {| umap := ∅ |} "k" (of_int64 1))|].
  assert (pmemkv_config_put_int64 16 "k" 2
            (with_entry 16 {| umap := ∅ |} "k" (entry_of (of_int64 1)) one_container)
          = val PMEMKV_STATUS_OK
              (with_entry 16 {| umap := ∅ |} "k" (entry_of (of_int64 1)) one_container))
    as Hsecond by (vm_compute; reflexivity).
  split; [exact Hsecond|].
  intros [w2 Hw2]. rewrite Hsecond in Hw2. discriminate Hw2.
Qed.

(** C1, amended: on a key the container does not hold yet, a typed put
    stores its value; any second typed put on that key returns
    [PMEMKV_STATUS_OK] and changes nothing, and the getter matching the
    first put hands back the first value. *)
Theorem duplicate_put_keeps_first w config c key tv1 tv2 :
  configs w !! config = Some c →
  umap c !! c_str key = None →
  in_range tv1 →
  ∃ w1, typed_put config key tv1 w = val PMEMKV_STATUS_OK w1 ∧
        typed_put config key tv2 w1 = val PMEMKV_STATUS_OK w1 ∧
        matching_get tv1 config key w1 = val (PMEMKV_STATUS_OK, Some (original tv1)) w1.
Proof.
  intros Hc Hfresh Hr.
  exists (with_entry config c key (entry_of tv1) w).
  pose proof (with_entry_lookup w config c key (entry_of tv1)) as Hc1.
  pose proof (umap_insert_fresh _ (entry_of tv1) _ Hfresh) as He1.
  split; [by apply typed_put_live|]. split.
  - rewrite (typed_put_live _ _ _ _ _ Hc1). f_equal.
    by eapply with_entry_present.
  - by eapply matching_get_entry_of.
Qed.

Lemma duplicate_put_keeps_first_witness :
  ∃ w1, typed_put 16 "k" (of_int64 (-7)) one_container = val PMEMKV_STATUS_OK w1 ∧
        typed_put 16 "k" (of_string "seven") w1 = val PMEMKV_STATUS_OK w1 ∧
        matching_get (of_int64 (-7)) 16 "k" w1
        = val (PMEMKV_STATUS_OK, Some (got_int64 (-7))) w1.
Proof.
  apply (duplicate_put_keeps_first one_container 16 {| umap := ∅ |} "k"
           (of_int64 (-7)) (of_string "seven")).
  - reflexivity.
  - reflexivity.
  - unfold in_range, INT64_MIN, INT64_MAX. lia.
Defined.

(** ** Cross-type reads *)

(** The four getters that look at the type tag refuse every entry of
    another type, the two integer types apart. *)
Lemma tag_checking_getters_refuse w config c key e :
  configs w !! config = Some c →
  umap c !! c_str key = Some e →
  (type e ≠ INT64 → type e ≠ UINT64 →
   pmemkv_config_get_int64 config key w = val (PMEMKV_STATUS_CONFIG_TYPE_ERROR, None) w ∧
   pmemkv_config_get_uint64 config key w = val (PMEMKV_STATUS_CONFIG_TYPE_ERROR, None) w) ∧
  (type e ≠ DOUBLE →
   pmemkv_config_get_double config key w = val (PMEMKV_STATUS_CONFIG_TYPE_ERROR, None) w) ∧
  (type e ≠ STRING →
   pmemkv_config_get_string config key w = val (PMEMKV_STATUS_CONFIG_TYPE_ERROR, None) w).
Proof.
  intros Hc He.
  unfold pmemkv_config_get_int64, pmemkv_config_get_uint64, pmemkv_config_get_double,
    pmemkv_config_get_string, bind.
  rewrite (pmemkv_config_get_found _ _ _ _ _ Hc He).
  repeat split; intros; repeat case_decide; try done; by destruct (type e).
Qed.

(** C4: a stored [UInt64] [v] is read by [pmemkv_config_get_int64] as
    [v] when [v < Int64::MAX] and refused with [ConfigTypeError]
    otherwise, [Int64::MAX] included; a stored [Int64] [v] is read by
    [pmemkv_config_get_uint64] as [v] when [v >= 0] and refused with
    [ConfigTypeError] otherwise. *)
Theorem numeric_conversion_boundary w config c key v :
  configs w !! config = Some c →
  (0 <= v <= UINT64_MAX →
   umap c !! c_str key = Some (entry_of (of_uint64 v)) →
   pmemkv_config_get_int64 config key w
   = val (if decide (v < INT64_MAX) then (PMEMKV_STATUS_OK, Some v)
          else (PMEMKV_STATUS_CONFIG_TYPE_ERROR, None)) w) ∧
  (INT64_MIN <= v <= INT64_MAX →
   umap c !! c_str key = Some (entry_of (of_int64 v)) →
   pmemkv_config_get_uint64 config key w
   = val (if decide (v >= 0) then (PMEMKV_STATUS_OK, Some v)
          else (PMEMKV_STATUS_CONFIG_TYPE_ERROR, None)) w).
Proof.
  intros Hc. split; intros Hv He.
  - unfold pmemkv_config_get_int64, bind.
    rewrite (pmemkv_config_get_found _ _ _ _ _ Hc He). cbn.
    rewrite load_uint64_unsigned by done. cbn.
    case_decide as Hlt; [|done].
    rewrite load_int64_bytes_of_int. cbn.
    rewrite to_int64_small; [done | unfold INT64_MAX in Hlt; lia].
  - unfold pmemkv_config_get_uint64, bind.
    rewrite (pmemkv_config_get_found _ _ _ _ _ Hc He). cbn.
    rewrite load_int64_signed by done. cbn.
    case_decide as Hge; [|done].
    rewrite load_uint64_signed by done. cbn.
    case_decide; [done | lia].
Qed.

Lemma numeric_conversion_boundary_witness :
  (pmemkv_config_get_int64 16 "max" boundary_world
   = val (PMEMKV_STATUS_CONFIG_TYPE_ERROR, None) boundary_world ∧
   pmemkv_config_get_int64 16 "below" boundary_world
   = val (PMEMKV_STATUS_OK, Some (INT64_MAX - 1)) boundary_world) ∧
  (pmemkv_config_get_uint64 16 "zero" boundary_world
   = val (PMEMKV_STATUS_OK, Some 0) boundary_world ∧
   pmemkv_config_get_uint64 16 "minus" boundary_world
   = val (PMEMKV_STATUS_CONFIG_TYPE_ERROR, None) boundary_world).
Proof.
  split; split.
  - apply (proj1 (numeric_conversion_boundary boundary_world 16 boundary_container
                    "max" INT64_MAX eq_refl)).
    + unfold UINT64_MAX, INT64_MAX. lia.
    + reflexivity.
  - apply (proj1 (numeric_conversion_boundary boundary_world 16 boundary_container
                    "below" (INT64_MAX - 1) eq_refl)).
    + unfold UINT64_MAX, INT64_MAX. lia.
    + reflexivity.
  - apply (proj2 (numeric_conversion_boundary boundary_world 16 boundary_container
                    "zero" 0 eq_refl)).
    + unfold INT64_MIN, INT64_MAX. lia.
    + reflexivity.
  - apply (proj2 (numeric_conversion_boundary boundary_world 16 boundary_container
                    "minus" (-1) eq_refl)).
    + unfold INT64_MIN, INT64_MAX. lia.
    + reflexivity.
Defined.

(** [pmemkv_config_get_data] never looks at the tag, and
    [pmemkv_config_get_object] looks at the size alone. *)
Lemma untagged_getters_accept w config c key e :
  configs w !! config = Some c →
  umap c !! c_str key = Some e →
  pmemkv_config_get_data config key w
  = val (PMEMKV_STATUS_OK, Some (value e, length (value e))) w ∧
  (length (value e) = sizeof_ptr →
   pmemkv_config_get_object config key w
   = val (PMEMKV_STATUS_OK, Some (le_combine (value e))) w).
Proof.
  intros Hc He.
  unfold pmemkv_config_get_data, pmemkv_config_get_object, bind.
  rewrite (pmemkv_config_get_found _ _ _ _ _ Hc He).
  split; [done|]. intros Hlen. cbn.
  case_decide as Hd; [by destruct Hd|].
  unfold load_uint64. rewrite Hlen. unfold sizeof_ptr. case_decide; [|lia].
  rewrite take_ge by (rewrite Hlen; unfold sizeof_ptr; lia). done.
Qed.

(** C2, where the code departs from it: on an [Int64] entry, eight bytes
    long as a pointer is, [pmemkv_config_get_object] and
    [pmemkv_config_get_data] both return [PMEMKV_STATUS_OK] and hand
    out the integer's bytes; neither returns
    [PMEMKV_STATUS_CONFIG_TYPE_ERROR]. *)
Theorem int64_entry_read_as_object_and_data :
  pmemkv_config_put_int64 16 "k" 5 one_container
  = val PMEMKV_STATUS_OK int64_entry_world ∧
  pmemkv_config_get_object 16 "k" int64_entry_world
  = val (PMEMKV_STATUS_OK, Some 5) int64_entry_world ∧
  pmemkv_config_get_data 16 "k" int64_entry_world
  = val (PMEMKV_STATUS_OK, Some (bytes_of_int 5, 8%nat)) int64_entry_world.
Proof.
  split; [|split].
  - by apply (typed_put_live one_container 16 {| umap := ∅ |} "k" (of_int64 5)).
  - vm_compute. reflexivity.
  - vm_compute. reflexivity.
Qed.

(** ** Destruction *)

Lemma calling_nil w : calling [] w = w.
Proof. destruct w. unfold calling. simpl. by rewrite app_nil_r. Qed.

Lemma calling_app calls1 calls2 w :
  calling calls2 (calling calls1 w) = calling (calls1 ++ calls2) w.
Proof. unfold calling. simpl. by rewrite app_assoc. Qed.

Lemma delete_item_owes item w :
  (type item.2 = OBJECT → length (value item.2) = sizeof_ptr) →
  delete_item item w = val tt (calling (option_list (owes item.2)) w).
Proof.
  intros Hsize. unfold delete_item, owes.
  case_decide as Hty.
  - rewrite Hty. unfold memcpy_object, bind, of_option.
    rewrite decide_True by auto. cbn.
    destruct (deleter item.2); cbn.
    + done.
    + unfold ret. f_equal. symmetry. apply calling_nil.
  - replace (match type item.2 with OBJECT => _ | _ => None end)
      with (@None (deleter_fn * Z)) by (by destruct (type item.2)).
    unfold ret. f_equal. symmetry. apply calling_nil.
Qed.

Lemma for_each_delete_item items w :
  Forall (λ item : string * entry,
            type item.2 = OBJECT → length (value item.2) = sizeof_ptr) items →
  for_each delete_item items w
  = val tt (calling (omap (λ item : string * entry, owes item.2) items) w).
Proof.
  intros Hall. revert w.
  induction Hall as [|item items Hitem _ IH]; intros w; simpl.
  - by rewrite calling_nil.
  - unfold bind. rewrite delete_item_owes by done.
    rewrite IH, calling_app. by destruct (owes item.2).
Qed.

Lemma pmemkv_config_delete_live w config c :
  configs w !! config = Some c →
  objects_sized c →
  pmemkv_config_delete config w
  = val tt (set_configs (delete config) (calling (destructor_obligations c) w)).
Proof.
  intros Hc Hsized. unfold pmemkv_config_delete.
  rewrite (bind_val _ _ _ _ _ (deref_live _ _ _ Hc)).
  unfold bind. rewrite for_each_delete_item; [done|].
  apply Forall_forall. intros [key e] Hin. simpl.
  apply elem_of_map_to_list in Hin. intros Hty. by eapply Hsized.
Qed.

(** What typed puts store keeps [objects_sized], and is owed a call
    exactly when it is an object put with a deleter. *)
Lemma owes_entry_of tv :
  in_range tv →
  owes (entry_of tv)
  = match tv with
    | of_object object (Some d) => Some (d, object)
    | _ => None
    end.
Proof.
  destruct tv as [| | | | |object [d|]]; try done.
  intros Hr. unfold owes. simpl.
  rewrite le_combine_split, Z.mod_small; [done|].
  simpl in Hr. unfold UINT64_MAX in Hr. unfold sizeof_ptr. lia.
Qed.

Lemma objects_sized_insert c key tv :
  objects_sized c →
  objects_sized {| umap := umap_insert key (entry_of tv) (umap c) |}.
Proof.
  intros Hc key' e. unfold umap_insert. simpl.
  destruct (umap c !! key) eqn:Hkey; [by apply Hc|].
  destruct (decide (key = key')) as [<-|Hne].
  - rewrite lookup_insert_eq. intros [= <-]. by destruct tv.
  - rewrite lookup_insert_ne by done. apply Hc.
Qed.




Lemma object_container_sized : objects_sized object_container.
Proof.
  apply (bool_decide_unpack
           (map_Forall (λ _ e, type e = OBJECT → length (value e) = sizeof_ptr)
              (umap object_container))).
  vm_compute. reflexivity.
Defined.

Lemma object_container_callers_deleters : callers_deleters object_container.
Proof.
  apply (bool_decide_unpack
           (map_Forall (λ _ e, deleter e ≠ Some fn_pmemkv_config_delete)
              (umap object_container))).
  vm_compute. reflexivity.
Defined.


(** ** The bounded copy *)

Lemma memset_all dst c : memset dst c (length dst) = Some (replicate (length dst) c).
Proof.
  unfold memset. rewrite decide_True by lia.
  by rewrite drop_all, app_nil_r.
Qed.

Lemma memcpy_zeroed (v : list byte) n :
  (length v ≤ n)%nat →
  memcpy (replicate n Byte.x00) v (length v)
  = Some (v ++ replicate (n - length v) Byte.x00).
Proof.
  intros Hle. unfold memcpy.
  rewrite decide_True by (rewrite length_replicate; lia).
  by rewrite firstn_all, drop_replicate.
Qed.

(** The call as a function of what the engine's [get] does: the
    callback runs on the zero-filled buffer. *)
Lemma pmemkv_get_copy_zeroed db k dst value_size w :
  pmemkv_get_copy db k (Some dst) (length dst) value_size w
  = match run_callback (get db k).1
            {| result := PMEMKV_STATUS_NOT_FOUND; buffer_size := length dst;
               buffer := Some (replicate (length dst) Byte.x00);
               value_size := value_size |} with
    | Some ctx =>
        val (leaving ctx match (get db k).2 with
                         | returns _ => result ctx
                         | throws _ => PMEMKV_STATUS_FAILED
                         end)
            (caught (get db k).2 w)
    | None => undef
    end.
Proof.
  unfold pmemkv_get_copy, bind, of_option. rewrite memset_all. cbn.
  destruct (get db k) as [delivered r]. cbn.
  destruct (run_callback delivered _) as [ctx|]; [|done]. cbn.
  unfold try_catch, bind, call.
  by destruct r as [s|[what|]].
Qed.

Lemma get_copy_callback_zeroed v n value_size :
  get_copy_callback v
    {| result := PMEMKV_STATUS_NOT_FOUND; buffer_size := n;
       buffer := Some (replicate n Byte.x00); value_size := value_size |}
  = Some (if decide (length v < n)%nat
          then {| result := PMEMKV_STATUS_OK; buffer_size := n;
                  buffer := Some (v ++ replicate (n - length v) Byte.x00);
                  value_size := written value_size (length v) |}
          else {| result := PMEMKV_STATUS_FAILED; buffer_size := n;
                  buffer := Some (replicate n Byte.x00);
                  value_size := written value_size (length v) |}).
Proof.
  unfold get_copy_callback. cbn.
  case_decide; [|done].
  by rewrite memcpy_zeroed by lia.
Qed.

(** C5: when the engine finds the key and hands its value [v] to the
    callback, [pmemkv_get_copy] on a buffer longer than [v] returns
    [PMEMKV_STATUS_OK] with [v] at the start of the buffer, and on a
    buffer not longer than [v] returns [PMEMKV_STATUS_FAILED]; either way
    the length of [v] is stored through [value_size] unless that is null. *)
Theorem bounded_copy db k dst value_size w v s :
  get db k = ([v], returns s) →
  ((length v < length dst)%nat →
   pmemkv_get_copy db k (Some dst) (length dst) value_size w
   = val (PMEMKV_STATUS_OK, Some (v ++ replicate (length dst - length v) Byte.x00),
          written value_size (length v)) w) ∧
  ((length dst ≤ length v)%nat →
   pmemkv_get_copy db k (Some dst) (length dst) value_size w
   = val (PMEMKV_STATUS_FAILED, Some (replicate (length dst) Byte.x00),
          written value_size (length v)) w).
Proof.
  intros Hget.
  rewrite pmemkv_get_copy_zeroed, Hget. cbn.
  rewrite get_copy_callback_zeroed. cbn.
  split; intros Hlen.
  - by rewrite decide_True by done.
  - by rewrite decide_False by lia.
Qed.

(** A value of length 5 against buffers of size 6 and 5. *)
Lemma bounded_copy_witness :
  pmemkv_get_copy (engine_answering [hello] (returns PMEMKV_STATUS_OK)) []
    (Some (replicate 6 Byte.xff)) 6 (Some 0%nat) one_container
  = val (PMEMKV_STATUS_OK, Some (hello ++ [Byte.x00]), Some 5%nat) one_container ∧
  pmemkv_get_copy (engine_answering [hello] (returns PMEMKV_STATUS_OK)) []
    (Some (replicate 5 Byte.xff)) 5 (Some 0%nat) one_container
  = val (PMEMKV_STATUS_FAILED, Some (replicate 5 Byte.x00), Some 5%nat) one_container.
Proof.
  split.
  - apply (proj1 (bounded_copy (engine_answering [hello] (returns PMEMKV_STATUS_OK)) []
                    (replicate 6 Byte.xff) (Some 0%nat) one_container hello
                    PMEMKV_STATUS_OK eq_refl)).
    simpl. lia.
  - apply (proj2 (bounded_copy (engine_answering [hello] (returns PMEMKV_STATUS_OK)) []
                    (replicate 5 Byte.xff) (Some 0%nat) one_container hello
                    PMEMKV_STATUS_OK eq_refl)).
    simpl. lia.
Defined.

(** C3, as stated, fails: the key is absent and the status is
    [PMEMKV_STATUS_NOT_FOUND], but the buffer, which held 01 02 03, holds
    zeros afterwards. *)
Lemma absent_key_buffer_is_cleared :
  pmemkv_get_copy (engine_answering [] (returns PMEMKV_STATUS_NOT_FOUND)) []
    (Some [Byte.x01; Byte.x02; Byte.x03]) 3 None one_container
  = val (PMEMKV_STATUS_NOT_FOUND, Some [Byte.x00; Byte.x00; Byte.x00], None) one_container ∧
  [Byte.x00; Byte.x00; Byte.x00] ≠ [Byte.x01; Byte.x02; Byte.x03].
Proof. split; [reflexivity | discriminate]. Qed.

(** C3, amended: when the engine does not find the key (it returns
    without calling the callback), [pmemkv_get_copy] returns
    [PMEMKV_STATUS_NOT_FOUND], leaves what [value_size] points to as it
    was, and leaves a non-null buffer filled with zeros over its
    [buffer_size] bytes; a null buffer stays null. *)
Theorem absent_key_not_found db k buffer buffer_size value_size w s :
  get db k = ([], returns s) →
  (∀ dst, buffer = Some dst → length dst = buffer_size) →
  pmemkv_get_copy db k buffer buffer_size value_size w
  = val (PMEMKV_STATUS_NOT_FOUND,
         (λ _, replicate buffer_size Byte.x00) <$> buffer,
         value_size) w.
Proof.
  intros Hget Hsize. destruct buffer as [dst|].
  - rewrite <- (Hsize dst eq_refl).
    by rewrite pmemkv_get_copy_zeroed, Hget.
  - unfold pmemkv_get_copy, bind. cbn. by rewrite Hget.
Qed.

Lemma absent_key_not_found_witness :
  pmemkv_get_copy (engine_answering [] (returns PMEMKV_STATUS_NOT_FOUND)) hello
    (Some hello) 5 (Some 9%nat) one_container
  = val (PMEMKV_STATUS_NOT_FOUND, Some (replicate 5 Byte.x00), Some 9%nat) one_container.
Proof.
  apply (absent_key_not_found (engine_answering [] (returns PMEMKV_STATUS_NOT_FOUND))
           hello (Some hello) 5%nat (Some 9%nat) one_container PMEMKV_STATUS_NOT_FOUND).
  - reflexivity.
  - intros dst [= <-]. reflexivity.
Defined.

(** C10: with a non-null buffer, and an engine that calls the value
    callback at most once, what [pmemkv_get_copy] leaves in the buffer
    does not depend on what the buffer held, so all of it has been
    written: on [PMEMKV_STATUS_NOT_FOUND] and when the value does not fit
    it is zeros throughout, and on [PMEMKV_STATUS_OK] it is the value
    followed by zeros up to [buffer_size]. *)
Theorem get_copy_zero_fills db k value_size w (buffer_size : nat) :
  (length (get db k).1 ≤ 1)%nat →
  ∃ st buf vs w',
    (∀ dst, length dst = buffer_size →
       pmemkv_get_copy db k (Some dst) buffer_size value_size w
       = val (st, Some buf, vs) w') ∧
    (st = PMEMKV_STATUS_NOT_FOUND → buf = replicate buffer_size Byte.x00) ∧
    (∀ v, (get db k).1 = [v] → (buffer_size ≤ length v)%nat →
       st = PMEMKV_STATUS_FAILED ∧ buf = replicate buffer_size Byte.x00) ∧
    (st = PMEMKV_STATUS_OK →
       ∃ v, (get db k).1 = [v] ∧ (length v < buffer_size)%nat ∧
            buf = v ++ replicate (buffer_size - length v) Byte.x00).
Proof.
  intros Honce.
  pose (answer_of := λ (found : status),
          match (get db k).2 with
          | returns _ => found
          | throws _ => PMEMKV_STATUS_FAILED
          end).
  destruct (get db k) as [[|v [|v' delivered]] r] eqn:Hget; simpl in *; [| |lia].
  - exists (answer_of PMEMKV_STATUS_NOT_FOUND), (replicate buffer_size Byte.x00),
      value_size, (caught r w).
    split; [|split; [|split]].
    + intros dst <-. by rewrite pmemkv_get_copy_zeroed, Hget.
    + done.
    + done.
    + unfold answer_of. by destruct r.
  - destruct (decide (length v < buffer_size)%nat) as [Hlt|Hge].
    + exists (answer_of PMEMKV_STATUS_OK),
        (v ++ replicate (buffer_size - length v) Byte.x00),
        (written value_size (length v)), (caught r w).
      split; [|split; [|split]].
      * intros dst <-. rewrite pmemkv_get_copy_zeroed, Hget. cbn.
        by rewrite get_copy_callback_zeroed, decide_True by done.
      * unfold answer_of. by destruct r.
      * intros v0 [= <-] Hle. lia.
      * intros _. by exists v.
    + exists PMEMKV_STATUS_FAILED, (replicate buffer_size Byte.x00),
        (written value_size (length v)), (caught r w).
      split; [|split; [|split]].
      * intros dst <-. rewrite pmemkv_get_copy_zeroed, Hget. cbn.
        rewrite get_copy_callback_zeroed, decide_False by done.
        by destruct r.
      * done.
      * done.
      * done.
Qed.

Lemma get_copy_zero_fills_witness :
  ∃ st buf vs w',
    (∀ dst, length dst = 6%nat →
       pmemkv_get_copy (engine_answering [hello] (returns PMEMKV_STATUS_OK)) []
         (Some dst) 6 None one_container
       = val (st, Some buf, vs) w') ∧
    (st = PMEMKV_STATUS_NOT_FOUND → buf = replicate 6 Byte.x00) ∧
    (∀ v, (get (engine_answering [hello] (returns PMEMKV_STATUS_OK)) []).1 = [v] →
       (6 ≤ length v)%nat →
       st = PMEMKV_STATUS_FAILED ∧ buf = replicate 6 Byte.x00) ∧
    (st = PMEMKV_STATUS_OK →
       ∃ v, (get (engine_answering [hello] (returns PMEMKV_STATUS_OK)) []).1 = [v] ∧
            (length v < 6)%nat ∧ buf = v ++ replicate (6 - length v) Byte.x00).
Proof.
  apply (get_copy_zero_fills (engine_answering [hello] (returns PMEMKV_STATUS_OK)) []
           None one_container 6).
  simpl. lia.
Defined.

(** ** Exceptions at the facade *)

Lemma status_call_contained (r : outcome status) :
  contained
    (try_catch (call r)
       (λ what, ERR what ;; ret PMEMKV_STATUS_FAILED)
       (Some (ERR "Unspecified failure" ;; ret PMEMKV_STATUS_FAILED))).
Proof. intros w e w'. by destruct r as [s|[what|]]. Qed.

Lemma count_call_contained (cr : option nat * outcome status) :
  contained
    (let '(cnt, r) := cr in
     try_catch (s <- call r ;; ret (s, cnt))
       (λ what, ERR what ;; ret (PMEMKV_STATUS_FAILED, cnt))
       (Some (ERR "Unspecified failure" ;; ret (PMEMKV_STATUS_FAILED, cnt)))).
Proof. intros w e w'. by destruct cr as [cnt [s|[what|]]]. Qed.

Lemma pmemkv_get_copy_contained db k buffer buffer_size value_size :
  contained (pmemkv_get_copy db k buffer buffer_size value_size).
Proof.
  intros w e w'. unfold pmemkv_get_copy, bind, of_option.
  destruct buffer as [dst|]; cbn.
  - destruct (memset dst Byte.x00 buffer_size); cbn; [|done].
    destruct (get db k) as [delivered r]. cbn.
    destruct (run_callback delivered _); cbn; [|done].
    by destruct r as [s|[what|]].
  - destruct (get db k) as [delivered r]. cbn.
    destruct (run_callback delivered _); cbn; [|done].
    by destruct r as [s|[what|]].
Qed.

(** Every operation of the facade but [pmemkv_get_above] turns whatever
    the engine throws into a status. *)
Lemma facade_contains_exceptions db k k2 v c arg buffer buffer_size value_size :
  contained (pmemkv_count_all db) ∧ contained (pmemkv_count_above db k) ∧
  contained (pmemkv_count_below db k) ∧ contained (pmemkv_count_between db k k2) ∧
  contained (pmemkv_get_all db c arg) ∧ contained (pmemkv_get_below db k c arg) ∧
  contained (pmemkv_get_between db k k2 c arg) ∧ contained (pmemkv_exists db k) ∧
  contained (pmemkv_get db k c arg) ∧
  contained (pmemkv_get_copy db k buffer buffer_size value_size) ∧
  contained (pmemkv_put db k v) ∧ contained (pmemkv_remove db k).
Proof.
  repeat split;
    first [ apply count_call_contained
          | apply status_call_contained
          | apply pmemkv_get_copy_contained ].
Qed.

(** [pmemkv_get_above] does so for the exceptions of the standard
    hierarchy. *)
Lemma pmemkv_get_above_std db k c arg w what :
  get_above db k c arg = throws (std_exception what) →
  pmemkv_get_above db k c arg w = val PMEMKV_STATUS_FAILED (set_errormsg what w).
Proof. unfold pmemkv_get_above. by intros ->. Qed.

(** C6, where the code departs from it: an exception outside the
    standard hierarchy thrown by the engine's [get_above] leaves
    [pmemkv_get_above] as it is; out of [pmemkv_get_below] the same
    failure comes as [PMEMKV_STATUS_FAILED] with a message. *)
Theorem get_above_lets_foreign_exception_through w :
  pmemkv_get_above (engine_answering [] (throws foreign_exception)) [] 0 0 w
  = exc foreign_exception w ∧
  pmemkv_get_below (engine_answering [] (throws foreign_exception)) [] 0 0 w
  = val PMEMKV_STATUS_FAILED (set_errormsg "Unspecified failure" w).
Proof. split; reflexivity. Qed.

(** ** Opening an engine *)

Lemma built_by_puts_empty : built_by_puts {| umap := ∅ |}.
Proof. intros key e. simpl. by rewrite lookup_empty. Qed.

Lemma built_by_puts_insert c key tv :
  built_by_puts c → in_range tv →
  built_by_puts {| umap := umap_insert key (entry_of tv) (umap c) |}.
Proof.
  intros Hc Hr key' e. unfold umap_insert. simpl.
  destruct (umap c !! key) eqn:Hkey; [by apply Hc|].
  destruct (decide (key = key')) as [<-|Hne].
  - rewrite lookup_insert_eq. intros [= <-]. by exists tv.
  - rewrite lookup_insert_ne by done. apply Hc.
Qed.

Lemma built_by_puts_sized c : built_by_puts c → objects_sized c.
Proof.
  intros Hc key e He Hty. destruct (Hc key e He) as (tv & _ & ->).
  by destruct tv.
Qed.

Lemma get_string_path w config c :
  configs w !! config = Some c →
  built_by_puts c →
  ∃ r, pmemkv_config_get_string config "path" w = val r w ∧
       match path_in c with
       | Some p => r.1 = PMEMKV_STATUS_OK ∧ r.2 ≫= c_str_at = Some p
       | None => r.1 ≠ PMEMKV_STATUS_OK
       end.
Proof.
  intros Hc Hbuilt. unfold pmemkv_config_get_string, path_in, bind.
  destruct (umap c !! "path"%string) as [e|] eqn:He.
  - rewrite (pmemkv_config_get_found _ _ _ "path" _ Hc He). cbn.
    destruct (Hbuilt _ _ He) as (tv & Hr & ->).
    destruct tv; cbn; (eexists; split; [reflexivity|]); cbn; try done.
    by rewrite c_str_at_stored.
  - rewrite (pmemkv_config_get_absent _ _ _ "path" Hc He). cbn.
    by eexists.
Qed.

Lemma get_uint64_size w config c :
  configs w !! config = Some c →
  built_by_puts c →
  ∃ r, pmemkv_config_get_uint64 config "size" w = val r w ∧
       match size_in c with
       | Some n => r = (PMEMKV_STATUS_OK, Some n)
       | None => r.1 ≠ PMEMKV_STATUS_OK
       end.
Proof.
  intros Hc Hbuilt. unfold pmemkv_config_get_uint64, size_in, bind.
  destruct (umap c !! "size"%string) as [e|] eqn:He.
  - rewrite (pmemkv_config_get_found _ _ _ "size" _ Hc He). cbn.
    destruct (Hbuilt _ _ He) as (tv & Hr & ->).
    destruct tv; cbn in *; try (eexists; split; [reflexivity|]; done).
    rewrite load_int64_signed by done. cbn.
    case_decide.
    + rewrite load_uint64_signed by done. cbn. rewrite decide_True by lia.
      by eexists.
    + by eexists.
  - rewrite (pmemkv_config_get_absent _ _ _ "size" Hc He). cbn.
    by eexists.
Qed.

Section open_properties.
Variable defined : build.
Variable is_directory : string → bool.
Variable new : engine_ctor → M engine_base.

(** C7, amended: with a null handle pointer [pmemkv_open] returns
    [PMEMKV_STATUS_INVALID_ARGUMENT] and does nothing else, whatever the
    engine name, known or not, and whatever the configuration. For an
    engine name that matches none of the known engines, [pmemkv_open]
    with a non-null configuration returns [PMEMKV_STATUS_FAILED] and
    sets the handle to null; the message is "Unknown engine name" when
    the configuration holds a string ["path"] and a ["size"] that reads
    as [UInt64] (and, in a build with vsmap or vcmap, the path is a
    directory), and otherwise says which of these is missing. With a
    null configuration it returns [PMEMKV_STATUS_INVALID_ARGUMENT] and
    leaves the handle as it was. *)
Theorem unknown_engine engine_c_str :
  (∀ config w,
     pmemkv_open defined is_directory new engine_c_str config None w
     = val (PMEMKV_STATUS_INVALID_ARGUMENT, None) w) ∧
  (known_engine defined (c_str engine_c_str) = false →
   (∀ config c db0 w,
      configs w !! config = Some c →
      built_by_puts c →
      pmemkv_open defined is_directory new engine_c_str (Some config) (Some db0) w
      = val (PMEMKV_STATUS_FAILED, Some None)
          (set_errormsg (unknown_engine_message defined is_directory c) w)) ∧
   (∀ db0 w,
      pmemkv_open defined is_directory new engine_c_str None (Some db0) w
      = val (PMEMKV_STATUS_INVALID_ARGUMENT, Some db0)
          (set_errormsg "Config pointer is null" w))).
Proof.
  split; [done|].
  intros Hunknown. unfold known_engine in Hunknown.
  repeat (apply orb_false_elim in Hunknown as [Hunknown ?]).
  split.
  - intros config c db0 w Hc Hbuilt.
    unfold pmemkv_open, try_catch, unknown_engine_message.
    rewrite Hunknown. repeat match goal with H : _ && _ = false |- _ => rewrite H end.
    destruct (get_string_path w config c Hc Hbuilt) as ([s path] & Hpath & Hp).
    destruct (get_uint64_size w config c Hc Hbuilt) as ([s' size] & Hsize & Hs).
    unfold bind at 1. rewrite Hpath.
    destruct (path_in c) as [p|]; simpl in Hp.
    + destruct Hp as [-> Hp]. cbn.
      rewrite decide_False by (by intros []).
      unfold bind at 1. rewrite Hsize.
      destruct (size_in c) as [n|]; simpl in Hs.
      * injection Hs as -> ->. cbn.
        rewrite decide_False by (by intros []). rewrite Hp.
        destruct (ENGINE_VSMAP defined || ENGINE_VCMAP defined); cbn; [|done].
        unfold bind, ret. by destruct (is_directory p).
      * cbn. by rewrite decide_True by done.
    + cbn. by rewrite decide_True by done.
  - intros db0 w. unfold pmemkv_open, try_catch.
    rewrite Hunknown. by repeat match goal with H : _ && _ = false |- _ => rewrite H end.
Qed.
End open_properties.

(** C7, as stated, fails: with a freshly made, empty configuration the
    unknown name is answered by [PMEMKV_STATUS_FAILED], but the message
    is about the configuration's path, not about the name. *)
Lemma unknown_engine_reported_as_missing_path :
  pmemkv_open blackhole_only (λ _, true) new_empty "nonexistent-engine"
    (Some 16) (Some None) one_container
  = val (PMEMKV_STATUS_FAILED, Some None)
      (set_errormsg "JSON does not contain a valid path string" one_container) ∧
  "JSON does not contain a valid path string"%string ≠ "Unknown engine name"%string.
Proof. split; [vm_compute; reflexivity | discriminate]. Qed.

Lemma path_size_container_built : built_by_puts path_size_container.
Proof.
  apply (built_by_puts_insert
           {| umap := umap_insert "path" (entry_of (of_string "/dev/shm")) ∅ |}).
  - apply (built_by_puts_insert {| umap := ∅ |}); [apply built_by_puts_empty | exact I].
  - unfold in_range, UINT64_MAX. lia.
Qed.

(** An unknown name against a configuration with path and size, and
    the name of an engine of every build against a null handle
    pointer. *)
Lemma unknown_engine_witness :
  pmemkv_open every_engine (λ _, true) new_empty "nonexistent-engine"
    (Some 16) (Some None) path_size_world
  = val (PMEMKV_STATUS_FAILED, Some None)
      (set_errormsg "Unknown engine name" path_size_world) ∧
  pmemkv_open every_engine (λ _, true) new_empty "blackhole" (Some 16) None
    path_size_world
  = val (PMEMKV_STATUS_INVALID_ARGUMENT, None) path_size_world.
Proof.
  split.
  - apply (proj1 (proj2 (unknown_engine every_engine (λ _, true) new_empty
                           "nonexistent-engine") eq_refl) 16 path_size_container).
    + reflexivity.
    + exact path_size_container_built.
  - apply (proj1 (unknown_engine every_engine (λ _, true) new_empty "blackhole")).
Defined.

(** ** Ingestion of JSON *)

Lemma keeps_refl config w : keeps config w w.
Proof. split; eauto. Qed.

Lemma keeps_trans config w1 w2 w3 :
  keeps config w1 w2 → keeps config w2 w3 → keeps config w1 w3.
Proof.
  intros [H12 O12] [H23 O23]. split; [|eauto].
  intros c1 Hc1.
  destruct (H12 c1 Hc1) as (c2 & Hc2 & S12).
  destruct (H23 c2 Hc2) as (c3 & Hc3 & S23). eauto.
Qed.

Lemma keeps_set_errormsg config w w' msg :
  keeps config w w' → keeps config w (set_errormsg msg w').
Proof. by intros [? ?]. Qed.

Lemma typed_put_keeps w config c name tv :
  configs w !! config = Some c →
  ∃ w', typed_put config name tv w = val PMEMKV_STATUS_OK w' ∧
        errormsg w' = errormsg w ∧ keeps config w w'.
Proof.
  intros Hc. exists (with_entry config c name (entry_of tv) w).
  split; [by apply typed_put_live|]. split; [done|]. split.
  - intros c0 Hc0. assert (c0 = c) as -> by congruence.
    eexists. split; [apply with_entry_lookup|]. apply objects_sized_insert.
  - intros q c0 Hq Hc0. unfold with_entry, set_configs. simpl.
    by rewrite lookup_insert_ne.
Qed.

Lemma first_failure_cons diagnose name value itr :
  first_failure diagnose ((name, value) :: itr)
  = match first_failure diagnose [(name, value)] with
    | Some msg => Some msg
    | None => first_failure diagnose itr
    end.
Proof.
  simpl. destruct (supported_scalar value); [done|].
  destruct (IsObject value); [|done]. by destruct (diagnose value).
Qed.

Lemma pmemkv_config_new_fresh w :
  ∃ p, pmemkv_config_new w = val (Some p) (set_configs <[p := {| umap := ∅ |}]> w) ∧
       configs w !! p = None.
Proof.
  exists (fresh ({[0]} ∪ dom (configs w) : gset Z)). split; [done|].
  apply not_elem_of_dom. intros Hin.
  apply (is_fresh ({[0]} ∪ dom (configs w) : gset Z)). set_solver.
Qed.

Arguments pmemkv_config_new : simpl never.
Arguments pmemkv_config_delete : simpl never.
Arguments pmemkv_config_put_object : simpl never.
Arguments pmemkv_config_put_string : simpl never.
Arguments pmemkv_config_put_int64 : simpl never.
Arguments pmemkv_config_put_double : simpl never.
Arguments from_json_document : simpl never.
Arguments diagnosis : simpl never.

Lemma ingest_scalar_step w config c name tv (k : M (option status)) :
  configs w !! config = Some c →
  ∃ w', keeps config w w' ∧
        (status <- typed_put config name tv ;;
         if decide (status ≠ PMEMKV_STATUS_OK) then k else ret None) w = val None w' ∧
        errormsg w' = errormsg w.
Proof.
  intros Hc.
  destruct (typed_put_keeps w config c name tv Hc) as (w' & Hput & Hmsg & Hkeeps).
  exists w'. split; [done|]. split; [|done].
  unfold bind. rewrite Hput. by rewrite decide_False by (by intros []).
Qed.

Lemma ingest_member_step name value config w c :
  (IsObject value = true → ingests value) →
  configs w !! config = Some c →
  ∃ w', keeps config w w' ∧
        match first_failure (λ v, diagnosis v) [(name, value)] with
        | None =>
            ingest_member (from_json_document value) config name value w = val None w' ∧
            errormsg w' = errormsg w
        | Some msg =>
            ingest_member (from_json_document value) config name value w
            = exc (std_exception msg) w'
        end.
Proof.
  intros IH Hc.
  pose proof (keeps_refl config w) as Hrefl.
  destruct value as [| | |members|elements|s|[n|bits]]; simpl.
  - by exists w.
  - apply (ingest_scalar_step w config c name (of_int64 0)); done.
  - apply (ingest_scalar_step w config c name (of_int64 1)); done.
  - specialize (IH eq_refl).
    destruct (pmemkv_config_new_fresh w) as (p & Hnew & Hfresh).
    assert (p ≠ config) as Hp by congruence.
    set (w1 := set_configs <[p := {| umap := ∅ |}]> w) in *.
    assert (configs w1 !! p = Some {| umap := ∅ |}) as Hp1 by apply lookup_insert_eq.
    destruct (IH p w1 _ Hp1) as (w2 & Hsub & Hmsg & [Hlive2 Hothers]).
    destruct (Hlive2 _ Hp1) as (c2 & Hc2 & Hsized2).
    specialize (Hsized2 (built_by_puts_sized _ built_by_puts_empty)).
    assert (configs w2 !! config = Some c) as Hcfg2.
    { apply Hothers; [done|]. unfold w1, set_configs. simpl.
      by rewrite lookup_insert_ne. }
    assert (∀ q c0, q ≠ config → configs w !! q = Some c0 → configs w2 !! q = Some c0)
      as Hkept.
    { intros q c0 Hq Hc0. apply Hothers; [congruence|].
      unfold w1, set_configs. simpl. rewrite lookup_insert_ne; [done | congruence]. }
    unfold ingest_member, verdict in *. cbn.
    destruct (diagnosis (VObject members)) as [msg|] eqn:Hdiag.
    + unfold bind. rewrite Hnew. cbn. rewrite Hsub.
      rewrite decide_True by done.
      rewrite (pmemkv_config_delete_live _ _ _ Hc2 Hsized2).
      eexists. split; [|reflexivity].
      split.
      * intros c0 Hc0. assert (c0 = c) as -> by congruence.
        exists c. split; [|done]. simpl. by rewrite lookup_delete_ne.
      * intros q c0 Hq Hc0. simpl. rewrite lookup_delete_ne by congruence. eauto.
    + destruct (ingest_scalar_step w2 config c name
                  (of_object p (Some fn_pmemkv_config_delete))
                  (runtime_error "Inserting a new entry to the config failed")
                  Hcfg2) as (w3 & [Hlive3 Hothers3] & Hput & Hmsg3).
      exists w3. split.
      * split; [|eauto].
        intros c0 Hc0. assert (c0 = c) as -> by congruence. eauto.
      * split; [|by rewrite Hmsg3, Hmsg].
        unfold bind at 1. rewrite Hnew.
        unfold bind at 1. rewrite Hsub.
        rewrite decide_False by (by intros []). exact Hput.
  - by exists w.
  - apply (ingest_scalar_step w config c name (of_string s)); done.
  - unfold ingest_member, supported_scalar. cbn.
    destruct ((INT64_MIN <=? n) && (n <=? INT64_MAX)); cbn.
    + apply (ingest_scalar_step w config c name (of_int64 n)); done.
    + by exists w.
  - apply (ingest_scalar_step w config c name (of_double bits)); done.
Qed.

Lemma for_members_ingest config members :
  Forall (λ m : string * Value, IsObject m.2 = true → ingests m.2) members →
  ∀ w c,
    configs w !! config = Some c →
    ∃ w', keeps config w w' ∧
          match first_failure (λ v, diagnosis v) members with
          | None =>
              for_members
                (λ name value, ingest_member (from_json_document value) config name value)
                members w = val None w' ∧
              errormsg w' = errormsg w
          | Some msg =>
              for_members
                (λ name value, ingest_member (from_json_document value) config name value)
                members w = exc (std_exception msg) w'
          end.
Proof.
  induction 1 as [|[name value] itr Hvalue _ IH]; intros w c Hc.
  - exists w. split; [apply keeps_refl | done].
  - rewrite first_failure_cons. simpl in Hvalue.
    destruct (ingest_member_step name value config w c Hvalue Hc)
      as (w1 & Hkeeps1 & Hstep).
    destruct (first_failure _ [(name, value)]) as [msg|].
    + exists w1. split; [done|]. cbn. unfold bind. by rewrite Hstep.
    + destruct Hstep as [Hstep Hmsg1].
      destruct (proj1 Hkeeps1 c Hc) as (c1 & Hc1 & _).
      destruct (IH w1 c1 Hc1) as (w2 & Hkeeps2 & Hrest).
      exists w2. split.
      * by apply (keeps_trans config w w1 w2).
      * cbn. unfold bind. rewrite Hstep.
        destruct (first_failure _ itr); [done|].
        destruct Hrest as [-> ->]. done.
Qed.

Lemma from_json_document_object members config :
  from_json_document (VObject members) config
  = try_catch
      ((if HasMember "path" members && negb (IsString (member "path" members))
        then runtime_error "'path' in JSON is not a valid string"
        else if HasMember "size" members && negb (IsNumber (member "size" members))
        then runtime_error "'size' in JSON is not a valid number"
        else ret tt) ;;
       r <- for_members
              (λ name value, ingest_member (from_json_document value) config name value)
              members ;;
       match r with
       | Some status => ret status
       | None => ret PMEMKV_STATUS_OK
       end)
      (λ what, ERR what ;; ret PMEMKV_STATUS_CONFIG_PARSING_ERROR)
      (Some (ERR "Unspecified failure" ;; ret PMEMKV_STATUS_CONFIG_PARSING_ERROR)).
Proof. reflexivity. Qed.

Lemma diagnosis_object members :
  diagnosis (VObject members)
  = if HasMember "path" members && negb (IsString (member "path" members))
    then Some "'path' in JSON is not a valid string"%string
    else if HasMember "size" members && negb (IsNumber (member "size" members))
    then Some "'size' in JSON is not a valid number"%string
    else first_failure (λ value, diagnosis value) members.
Proof. reflexivity. Qed.

(** Ingestion of an object into a live container always returns, with
    [PMEMKV_STATUS_OK] or [PMEMKV_STATUS_CONFIG_PARSING_ERROR], and in
    the second case with the message of the first failure. *)
Lemma from_json_document_ingests doc : IsObject doc = true → ingests doc.
Proof.
  induction doc as [members IH|v Hv] using Value_members_ind; [|congruence].
  intros _ config w c Hc.
  rewrite from_json_document_object. unfold verdict. rewrite diagnosis_object.
  unfold try_catch.
  destruct (HasMember "path" members && negb (IsString (member "path" members))).
  { eexists. split; [reflexivity|]. split; [done|].
    apply keeps_set_errormsg, keeps_refl. }
  destruct (HasMember "size" members && negb (IsNumber (member "size" members))).
  { eexists. split; [reflexivity|]. split; [done|].
    apply keeps_set_errormsg, keeps_refl. }
  destruct (for_members_ingest config members IH w c Hc) as (w' & Hkeeps & Hloop).
  unfold bind. cbn.
  destruct (first_failure _ members) as [msg|].
  - rewrite Hloop. eexists. split; [reflexivity|]. split; [done|].
    by apply keeps_set_errormsg.
  - destruct Hloop as [-> Hmsg]. by exists w'.
Qed.

Lemma first_failure_unsupported diagnose members name value :
  (name, value) ∈ members → unsupported value = true →
  is_Some (first_failure diagnose members).
Proof.
  intros Hin Hun. induction members as [|[name' value'] itr IH]; [by inversion Hin|].
  rewrite first_failure_cons.
  destruct (first_failure diagnose [(name', value')]) as [msg|] eqn:Hfirst; [done|].
  apply elem_of_cons in Hin as [[= <- <-]|Hin]; [|by apply IH].
  unfold unsupported in Hun. simpl in Hfirst.
  by destruct (supported_scalar value), (IsObject value).
Qed.

Lemma first_failure_after pre name value post :
  Forall goes_through pre → unsupported value = true →
  first_failure (λ v, diagnosis v) (pre ++ (name, value) :: post)
  = Some (unsupported_message value).
Proof.
  intros Hpre Hun. induction Hpre as [|[name' value'] pre Hthrough _ IH]; simpl.
  - unfold unsupported in Hun.
    by destruct (supported_scalar value), (IsObject value).
  - destruct Hthrough as [Hscalar|[Hobject Hdiag]]; simpl in *.
    + by rewrite Hscalar.
    + rewrite Hobject, Hdiag. by destruct (supported_scalar value').
Qed.

Lemma prefix_refl s : String.prefix s s = true.
Proof. induction s as [|a s IH]; [done|]. simpl. by destruct (ascii_dec a a). Qed.

Lemma includes_suffix lead s : includes s (lead +:+ s) = true.
Proof.
  induction lead as [|a lead IH]; simpl.
  - destruct s as [|a s]; simpl; [done|].
    destruct (ascii_dec a a); [|done]. by rewrite prefix_refl.
  - rewrite IH. apply orb_true_r.
Qed.

Section json_properties.
Variable Parse : string → option Value.

(** C8, amended: a text that parses to an object with a member of an
    unsupported kind (an array, null, an integer beyond [int64_t]) makes
    [pmemkv_config_from_json] return
    [PMEMKV_STATUS_CONFIG_PARSING_ERROR]. The message is "Unsupported
    data type in JSON string: " with the type name of the first such
    member, when ["path"], if there, is a string, ["size"], if there, is
    a number, and every member before it goes through; a failure that
    comes first has its own message. *)
Theorem unsupported_member_rejected json members config w c :
  Parse json = Some (VObject members) →
  configs w !! config = Some c →
  (∃ name value, (name, value) ∈ members ∧ unsupported value = true) →
  ∃ w',
    pmemkv_config_from_json Parse config json w
    = val PMEMKV_STATUS_CONFIG_PARSING_ERROR w' ∧
    ∀ pre name value post,
      members = pre ++ (name, value) :: post →
      unsupported value = true →
      Forall goes_through pre →
      HasMember "path" members && negb (IsString (member "path" members)) = false →
      HasMember "size" members && negb (IsNumber (member "size" members)) = false →
      errormsg w' = unsupported_message value ∧
      includes (nth (GetType value) kTypeNames ""%string) (errormsg w') = true.
Proof.
  intros Hparse Hc (name & value & Hin & Hun).
  unfold pmemkv_config_from_json. rewrite Hparse.
  destruct (from_json_document_ingests (VObject members) eq_refl config w c Hc)
    as (w' & Hrun & Hmsg & _).
  exists w'. unfold verdict in Hrun. rewrite diagnosis_object in Hrun, Hmsg.
  split.
  - rewrite Hrun.
    destruct (HasMember "path" members && _); [done|].
    destruct (HasMember "size" members && _); [done|].
    by destruct (first_failure_unsupported (λ v, diagnosis v) members name value Hin Hun)
      as [msg ->].
  - intros pre name0 value0 post -> Hun0 Hpre Hpath Hsize.
    rewrite Hpath, Hsize, (first_failure_after pre name0 value0 post Hpre Hun0) in Hmsg.
    simpl in Hmsg. rewrite Hmsg. split; [done|].
    apply includes_suffix.
Qed.
End json_properties.

(** C8, as stated, fails: the null member ["path"] is refused with
    [PMEMKV_STATUS_CONFIG_PARSING_ERROR], but the message does not have
    the member's type name, Null, in it. *)
Lemma null_path_message_lacks_type_name :
  pmemkv_config_from_json parse_examples 16 null_path_text one_container
  = val PMEMKV_STATUS_CONFIG_PARSING_ERROR
      (set_errormsg "'path' in JSON is not a valid string" one_container) ∧
  nth (GetType VNull) kTypeNames ""%string = "Null"%string ∧
  includes "Null" "'path' in JSON is not a valid string" = false.
Proof. split; [|split]; vm_compute; reflexivity. Qed.

Lemma unsupported_member_rejected_witness :
  (∃ w', pmemkv_config_from_json parse_examples 16 array_text one_container
         = val PMEMKV_STATUS_CONFIG_PARSING_ERROR w' ∧
         errormsg w' = "Unsupported data type in JSON string: Array"%string) ∧
  (∃ w', pmemkv_config_from_json parse_examples 16 null_text one_container
         = val PMEMKV_STATUS_CONFIG_PARSING_ERROR w' ∧
         errormsg w' = "Unsupported data type in JSON string: Null"%string).
Proof.
  split.
  - destruct (unsupported_member_rejected parse_examples array_text _ 16 one_container
                {| umap := ∅ |} eq_refl eq_refl) as (w' & Hrun & Hmsg).
    { eexists _, _. split; [apply list_elem_of_here | reflexivity]. }
    exists w'. split; [exact Hrun|].
    exact (proj1 (Hmsg [] _ _ [] eq_refl eq_refl (List.Forall_nil _) eq_refl eq_refl)).
  - destruct (unsupported_member_rejected parse_examples null_text _ 16 one_container
                {| umap := ∅ |} eq_refl eq_refl) as (w' & Hrun & Hmsg).
    { eexists _, _. split; [apply list_elem_of_here | reflexivity]. }
    exists w'. split; [exact Hrun|].
    exact (proj1 (Hmsg [] _ _ [] eq_refl eq_refl (List.Forall_nil _) eq_refl eq_refl)).
Defined.

(** * Further properties *)

(** ** The container *)

(** X1: a typed put is an insert-if-absent on the one key it names. In
    the container it was given, that key holds the entry it held before,
    or the entry of the value put if it held none; every other key and
    every other container is as before, and so are the last-error slot
    and the record of deleter calls. *)
Theorem typed_put_inserts_if_absent w config c key tv :
  configs w !! config = Some c →
  ∃ w' c',
    typed_put config key tv w = val PMEMKV_STATUS_OK w' ∧
    configs w' !! config = Some c' ∧
    umap c' !! c_str key = Some (default (entry_of tv) (umap c !! c_str key)) ∧
    (∀ k, k ≠ c_str key → umap c' !! k = umap c !! k) ∧
    (∀ q, q ≠ config → configs w' !! q = configs w !! q) ∧
    errormsg w' = errormsg w ∧
    deleter_calls w' = deleter_calls w.
Proof.
  intros Hc.
  exists (with_entry config c key (entry_of tv) w),
    {| umap := umap_insert (c_str key) (entry_of tv) (umap c) |}.
  split; [by apply typed_put_live|]. split; [apply with_entry_lookup|].
  unfold umap_insert. simpl.
  split; [|split; [|split]].
  - destruct (umap c !! c_str key) as [e|] eqn:He; simpl; [done|].
    apply lookup_insert_eq.
  - intros k Hk. destruct (umap c !! c_str key); [done|].
    by rewrite lookup_insert_ne.
  - intros q Hq. by rewrite lookup_insert_ne.
  - done.
Qed.

Lemma typed_put_inserts_if_absent_witness :
  ∃ w' c',
    typed_put 16 "max" (of_string "other") boundary_world = val PMEMKV_STATUS_OK w' ∧
    configs w' !! 16 = Some c' ∧
    umap c' !! "max"%string = Some (entry_of (of_uint64 INT64_MAX)) ∧
    (∀ k, k ≠ "max"%string → umap c' !! k = umap boundary_container !! k) ∧
    (∀ q, q ≠ 16 → configs w' !! q = configs boundary_world !! q) ∧
    errormsg w' = errormsg boundary_world ∧
    deleter_calls w' = deleter_calls boundary_world.
Proof.
  exact (typed_put_inserts_if_absent boundary_world 16 boundary_container "max"
           (of_string "other") eq_refl).
Defined.

(** X2: on a key the container does not hold, the getters for data,
    integers, doubles and strings return [PMEMKV_STATUS_NOT_FOUND],
    hand out nothing and change nothing, while
    [pmemkv_config_get_object] copies from a pointer that was never
    set. *)
Theorem getters_on_missing_key w config c key :
  configs w !! config = Some c →
  umap c !! c_str key = None →
  pmemkv_config_get_data config key w = val (PMEMKV_STATUS_NOT_FOUND, None) w ∧
  pmemkv_config_get_int64 config key w = val (PMEMKV_STATUS_NOT_FOUND, None) w ∧
  pmemkv_config_get_uint64 config key w = val (PMEMKV_STATUS_NOT_FOUND, None) w ∧
  pmemkv_config_get_double config key w = val (PMEMKV_STATUS_NOT_FOUND, None) w ∧
  pmemkv_config_get_string config key w = val (PMEMKV_STATUS_NOT_FOUND, None) w ∧
  pmemkv_config_get_object config key w = undef.
Proof.
  intros Hc Hkey.
  unfold pmemkv_config_get_data, pmemkv_config_get_int64, pmemkv_config_get_uint64,
    pmemkv_config_get_double, pmemkv_config_get_string, pmemkv_config_get_object, bind.
  by rewrite (pmemkv_config_get_absent _ _ _ _ Hc Hkey).
Qed.

Lemma getters_on_missing_key_witness :
  pmemkv_config_get_data 16 "k" one_container
  = val (PMEMKV_STATUS_NOT_FOUND, None) one_container ∧
  pmemkv_config_get_int64 16 "k" one_container
  = val (PMEMKV_STATUS_NOT_FOUND, None) one_container ∧
  pmemkv_config_get_uint64 16 "k" one_container
  = val (PMEMKV_STATUS_NOT_FOUND, None) one_container ∧
  pmemkv_config_get_double 16 "k" one_container
  = val (PMEMKV_STATUS_NOT_FOUND, None) one_container ∧
  pmemkv_config_get_string 16 "k" one_container
  = val (PMEMKV_STATUS_NOT_FOUND, None) one_container ∧
  pmemkv_config_get_object 16 "k" one_container = undef.
Proof.
  exact (getters_on_missing_key one_container 16 {| umap := ∅ |} "k" eq_refl eq_refl).
Defined.

(** X3: [pmemkv_config_get_object] answers by the size of the entry and
    nothing else: [PMEMKV_STATUS_OK] with the stored bytes as the pointer
    when the entry is [sizeof(void * )] bytes long, and
    [PMEMKV_STATUS_CONFIG_TYPE_ERROR] otherwise. *)
Theorem get_object_checks_size_only w config c key e :
  configs w !! config = Some c →
  umap c !! c_str key = Some e →
  pmemkv_config_get_object config key w
  = val (if decide (length (value e) = sizeof_ptr)
         then (PMEMKV_STATUS_OK, Some (le_combine (value e)))
         else (PMEMKV_STATUS_CONFIG_TYPE_ERROR, None)) w.
Proof.
  intros Hc He. case_decide as Hlen.
  - by apply (untagged_getters_accept w config c key e Hc He).
  - unfold pmemkv_config_get_object, bind.
    rewrite (pmemkv_config_get_found _ _ _ _ _ Hc He). cbn.
    by rewrite decide_True by done.
Qed.

(** A world whose container holds a string of [n] characters at "k". *)
Lemma get_object_checks_size_only_witness :
  pmemkv_config_get_object 16 "k"
    (with_entry 16 {| umap := ∅ |} "k" (entry_of (of_string "pointer")) one_container)
  = val (PMEMKV_STATUS_OK, Some 32199698088030064)
      (with_entry 16 {| umap := ∅ |} "k" (entry_of (of_string "pointer")) one_container) ∧
  pmemkv_config_get_object 16 "k"
    (with_entry 16 {| umap := ∅ |} "k" (entry_of (of_string "ptr")) one_container)
  = val (PMEMKV_STATUS_CONFIG_TYPE_ERROR, None)
      (with_entry 16 {| umap := ∅ |} "k" (entry_of (of_string "ptr")) one_container).
Proof.
  split.
  - exact (get_object_checks_size_only
             (with_entry 16 {| umap := ∅ |} "k" (entry_of (of_string "pointer"))
                one_container)
             16 {| umap := {[ "k"%string := entry_of (of_string "pointer") ]} |} "k"
             (entry_of (of_string "pointer")) eq_refl eq_refl).
  - exact (get_object_checks_size_only
             (with_entry 16 {| umap := ∅ |} "k" (entry_of (of_string "ptr"))
                one_container)
             16 {| umap := {[ "k"%string := entry_of (of_string "ptr") ]} |} "k"
             (entry_of (of_string "ptr")) eq_refl eq_refl).
Defined.

(** X4: the getters for integers, doubles and strings answer by the tag
    of the entry. On an entry stored by a typed put, each returns
    [PMEMKV_STATUS_OK] with the value put when the tag is its own, the
    two integer getters also across the integer tags within the range
    the other type shares, and [PMEMKV_STATUS_CONFIG_TYPE_ERROR] with
    nothing handed out in every other case. *)
Theorem tag_checking_getters_table w config c key tv :
  configs w !! config = Some c →
  umap c !! c_str key = Some (entry_of tv) →
  in_range tv →
  pmemkv_config_get_int64 config key w
  = val match tv with
        | of_int64 v => (PMEMKV_STATUS_OK, Some v)
        | of_uint64 v =>
            if decide (v < INT64_MAX) then (PMEMKV_STATUS_OK, Some v)
            else (PMEMKV_STATUS_CONFIG_TYPE_ERROR, None)
        | _ => (PMEMKV_STATUS_CONFIG_TYPE_ERROR, None)
        end w ∧
  pmemkv_config_get_uint64 config key w
  = val match tv with
        | of_uint64 v => (PMEMKV_STATUS_OK, Some v)
        | of_int64 v =>
            if decide (v >= 0) then (PMEMKV_STATUS_OK, Some v)
            else (PMEMKV_STATUS_CONFIG_TYPE_ERROR, None)
        | _ => (PMEMKV_STATUS_CONFIG_TYPE_ERROR, None)
        end w ∧
  pmemkv_config_get_double config key w
  = val match tv with
        | of_double bits => (PMEMKV_STATUS_OK, Some bits)
        | _ => (PMEMKV_STATUS_CONFIG_TYPE_ERROR, None)
        end w ∧
  pmemkv_config_get_string config key w
  = val match tv with
        | of_string s => (PMEMKV_STATUS_OK, Some (c_string_bytes s))
        | _ => (PMEMKV_STATUS_CONFIG_TYPE_ERROR, None)
        end w.
Proof.
  intros Hc He Hr.
  unfold pmemkv_config_get_int64, pmemkv_config_get_uint64, pmemkv_config_get_double,
    pmemkv_config_get_string, bind.
  rewrite (pmemkv_config_get_found _ _ _ _ _ Hc He).
  destruct tv; cbn in *; repeat split; try done.
  - by rewrite load_int64_signed.
  - rewrite load_int64_signed by done. cbn. case_decide; [|done].
    rewrite load_uint64_signed by done. cbn. by rewrite decide_True by lia.
  - rewrite load_uint64_unsigned by done. cbn. case_decide as Hlt; [|done].
    rewrite load_int64_bytes_of_int. cbn.
    rewrite to_int64_small; [done | unfold INT64_MAX in Hlt; lia].
  - by rewrite load_uint64_unsigned.
  - by rewrite load_uint64_unsigned.
Qed.

Lemma tag_checking_getters_table_witness :
  pmemkv_config_get_int64 16 "zero" boundary_world
  = val (PMEMKV_STATUS_OK, Some 0) boundary_world ∧
  pmemkv_config_get_uint64 16 "zero" boundary_world
  = val (PMEMKV_STATUS_OK, Some 0) boundary_world ∧
  pmemkv_config_get_double 16 "zero" boundary_world
  = val (PMEMKV_STATUS_CONFIG_TYPE_ERROR, None) boundary_world ∧
  pmemkv_config_get_string 16 "zero" boundary_world
  = val (PMEMKV_STATUS_CONFIG_TYPE_ERROR, None) boundary_world.
Proof.
  apply (tag_checking_getters_table boundary_world 16 boundary_container "zero"
           (of_int64 0)).
  - reflexivity.
  - reflexivity.
  - unfold in_range, INT64_MIN, INT64_MAX. lia.
Defined.

(** X5: [pmemkv_config_get_data] hands out the bytes of an entry as
    they are stored, whatever its type: eight bytes for an integer, a
    double or an object, and for a string its characters followed by
    the terminating NUL, which the size counts. *)
Theorem get_data_hands_out_representation w config c key tv :
  configs w !! config = Some c →
  umap c !! c_str key = Some (entry_of tv) →
  ∃ data,
    pmemkv_config_get_data config key w = val (PMEMKV_STATUS_OK, Some (data, length data)) w ∧
    match tv with
    | of_int64 v | of_uint64 v | of_double v | of_object v _ =>
        data = le_split 8 v ∧ length data = 8%nat
    | of_string s =>
        data = list_byte_of_string (c_str s) ++ [Byte.x00] ∧
        length data = S (String.length (c_str s))
    | of_data bytes => data = bytes
    end.
Proof.
  intros Hc He. exists (value (entry_of tv)).
  split; [by apply (untagged_getters_accept w config c key _ Hc He)|].
  destruct tv; simpl; try done.
  unfold c_string_bytes. split; [done|].
  rewrite length_app. simpl.
  unfold list_byte_of_string. rewrite length_map.
  generalize (c_str s). intros t.
  induction t as [|a t IH]; simpl; lia.
Qed.

Lemma get_data_hands_out_representation_witness :
  ∃ data,
    pmemkv_config_get_data 16 "k"
      (with_entry 16 {| umap := ∅ |} "k" (entry_of (of_string "ptr")) one_container)
    = val (PMEMKV_STATUS_OK, Some (data, length data))
        (with_entry 16 {| umap := ∅ |} "k" (entry_of (of_string "ptr")) one_container) ∧
    data = list_byte_of_string "ptr" ++ [Byte.x00] ∧ length data = 4%nat.
Proof.
  exact (get_data_hands_out_representation
           (with_entry 16 {| umap := ∅ |} "k" (entry_of (of_string "ptr")) one_container)
           16 {| umap := {[ "k"%string := entry_of (of_string "ptr") ]} |} "k"
           (of_string "ptr") eq_refl eq_refl).
Defined.

(** ** Putting objects and destroying the container *)

Lemma destructor_obligations_insert c key e :
  umap c !! key = None →
  destructor_obligations {| umap := <[key := e]> (umap c) |}
  ≡ₚ option_list (owes e) ++ destructor_obligations c.
Proof.
  intros Hkey. unfold destructor_obligations. simpl.
  rewrite (map_to_list_insert _ _ _ Hkey). simpl.
  by destruct (owes e).
Qed.

(** X6: [pmemkv_config_put_object] with a deleter of the caller's, or
    none, followed by [pmemkv_config_delete], on a container whose
    deleters are the caller's. When the key was free, destruction calls
    the deleter put, if it is not null, once with the pointer put,
    besides the calls the container owed already. When the key was
    taken, the object is dropped at the put: destruction makes the calls
    the container owed already and no call for this object. *)
Theorem put_object_then_delete w config c key object d :
  configs w !! config = Some c →
  objects_sized c →
  callers_deleters c →
  d ≠ Some fn_pmemkv_config_delete →
  0 <= object <= UINT64_MAX →
  ∃ calls w',
    (pmemkv_config_put_object config key object d ;; pmemkv_config_delete config) w
    = val tt w' ∧
    deleter_calls w' = deleter_calls w ++ calls ∧
    calls ≡ₚ match umap c !! c_str key with
             | None => option_list ((λ f, (f, object)) <$> d)
             | Some _ => []
             end ++ destructor_obligations c ∧
    configs w' !! config = None.
Proof.
  intros Hc Hsized _ _ Hobject.
  pose proof (typed_put_live w config c key (of_object object d) Hc) as Hput.
  change (typed_put config key (of_object object d))
    with (pmemkv_config_put_object config key object d) in Hput.
  pose proof (with_entry_lookup w config c key (entry_of (of_object object d))) as Hc1.
  pose proof (objects_sized_insert c (c_str key) (of_object object d) Hsized) as Hsized1.
  eexists _, _. split; [|split; [|split]].
  - unfold bind. rewrite Hput. by apply pmemkv_config_delete_live.
  - reflexivity.
  - unfold umap_insert.
    destruct (umap c !! c_str key) as [e0|] eqn:Hkey; [done|].
    rewrite destructor_obligations_insert by done.
    rewrite (owes_entry_of (of_object object d)) by done.
    by destruct d.
  - simpl. apply lookup_delete_eq.
Qed.

Lemma put_object_then_delete_witness :
  (∃ calls w',
     (pmemkv_config_put_object 16 "fresh" 12288 (Some (fn_extern 9)) ;;
      pmemkv_config_delete 16) object_world = val tt w' ∧
     deleter_calls w' = deleter_calls object_world ++ calls ∧
     calls ≡ₚ [(fn_extern 9, 12288); (fn_extern 7, 4096)] ∧
     configs w' !! 16 = None) ∧
  (∃ calls w',
     (pmemkv_config_put_object 16 "borrowed" 12288 (Some (fn_extern 9)) ;;
      pmemkv_config_delete 16) object_world = val tt w' ∧
     deleter_calls w' = deleter_calls object_world ++ calls ∧
     calls ≡ₚ [(fn_extern 7, 4096)] ∧
     configs w' !! 16 = None).
Proof.
  split.
  - apply (put_object_then_delete object_world 16 object_container "fresh" 12288
             (Some (fn_extern 9)) eq_refl object_container_sized
             object_container_callers_deleters); [discriminate|].
    unfold UINT64_MAX. lia.
  - apply (put_object_then_delete object_world 16 object_container "borrowed" 12288
             (Some (fn_extern 9)) eq_refl object_container_sized
             object_container_callers_deleters); [discriminate|].
    unfold UINT64_MAX. lia.
Defined.

(** ** Ingestion of JSON, member by member *)

Lemma holding_same w config c :
  configs w !! config = Some c → holding config (umap c) w = w.
Proof.
  intros Hc. unfold holding, set_configs. destruct w as [cs msg calls], c as [m].
  simpl in *. f_equal. by apply insert_id.
Qed.

Lemma holding_holding config m1 m2 w :
  holding config m2 (holding config m1 w) = holding config m2 w.
Proof. unfold holding, set_configs. simpl. by rewrite insert_insert_eq. Qed.

Lemma holding_lookup config m w :
  configs (holding config m w) !! config = Some {| umap := m |}.
Proof. apply lookup_insert_eq. Qed.

Lemma supported_scalar_of v :
  supported_scalar v = true → ∃ tv, scalar_of v = Some tv.
Proof.
  destruct v as [| | |members|elements|s|[n|bits]]; try done; try by eexists.
  unfold supported_scalar, scalar_of. simpl.
  destruct ((INT64_MIN <=? n) && (n <=? INT64_MAX)); [by eexists | done].
Qed.

Lemma ingest_member_scalar from_json config name value tv w c :
  scalar_of value = Some tv →
  configs w !! config = Some c →
  ingest_member from_json config name value w
  = val None (holding config (umap_insert (c_str name) (entry_of tv) (umap c)) w).
Proof.
  intros Htv Hc.
  assert (∀ k : M (option status),
            (status <- typed_put config name tv ;;
             if decide (status ≠ PMEMKV_STATUS_OK) then k else ret None) w
            = val None (holding config (umap_insert (c_str name) (entry_of tv) (umap c)) w))
    as Hstep.
  { intros k. unfold bind. rewrite (typed_put_live _ _ _ _ _ Hc).
    by rewrite decide_False by (by intros []). }
  destruct value as [| | |members|elements|s|[n|bits]]; try done;
    unfold scalar_of in Htv; simpl in Htv.
  - injection Htv as <-. apply Hstep.
  - injection Htv as <-. apply Hstep.
  - injection Htv as <-. apply Hstep.
  - unfold ingest_member. simpl.
    destruct ((INT64_MIN <=? n) && (n <=? INT64_MAX)); [|done].
    injection Htv as <-. apply Hstep.
  - injection Htv as <-. apply Hstep.
Qed.

(** The loop over members that are all scalars puts them in turn and
    goes on with the rest. *)
Lemma for_members_scalars from_json config pre rest w c :
  Forall (λ m : string * Value, supported_scalar m.2 = true) pre →
  configs w !! config = Some c →
  for_members (λ name value, ingest_member (from_json value) config name value)
    (pre ++ rest) w
  = for_members (λ name value, ingest_member (from_json value) config name value)
      rest (holding config (put_members pre (umap c)) w).
Proof.
  intros Hpre. revert w c.
  induction Hpre as [|[name value] pre Hscalar _ IH]; intros w c Hc; simpl.
  - by rewrite holding_same.
  - destruct (supported_scalar_of value Hscalar) as [tv Htv].
    unfold bind. rewrite (ingest_member_scalar _ _ _ _ tv w c Htv Hc).
    rewrite (IH _ _ (holding_lookup _ _ _)). simpl.
    unfold put_members. simpl. rewrite Htv.
    by rewrite holding_holding.
Qed.

Lemma put_members_lookup pre k (m : gmap string entry) e :
  m !! k = Some e → put_members pre m !! k = Some e.
Proof.
  revert m. induction pre as [|[name value] pre IH]; intros m Hk; [done|].
  unfold put_members in *. simpl. apply IH.
  destruct (scalar_of value) as [tv|]; [|done].
  unfold umap_insert. destruct (m !! c_str name) eqn:Hname; [done|].
  rewrite lookup_insert_ne; [done | congruence].
Qed.

Lemma put_members_other pre k (m : gmap string entry) :
  Forall (λ member : string * Value, c_str member.1 ≠ k) pre →
  put_members pre m !! k = m !! k.
Proof.
  intros Hpre. revert m.
  induction Hpre as [|[name value] pre Hname _ IH]; intros m; [done|].
  unfold put_members in *. simpl in *. rewrite IH.
  destruct (scalar_of value) as [tv|]; [|done].
  unfold umap_insert. destruct (m !! c_str name); [done|].
  by rewrite lookup_insert_ne.
Qed.

Lemma from_json_document_scalars members config w c :
  configs w !! config = Some c →
  Forall (λ m : string * Value, supported_scalar m.2 = true) members →
  HasMember "path" members && negb (IsString (member "path" members)) = false →
  HasMember "size" members && negb (IsNumber (member "size" members)) = false →
  from_json_document (VObject members) config w
  = val PMEMKV_STATUS_OK (holding config (put_members members (umap c)) w).
Proof.
  intros Hc Hscalars Hpath Hsize.
  rewrite from_json_document_object. unfold try_catch, bind.
  rewrite Hpath, Hsize. cbn.
  rewrite <- (app_nil_r members) at 1.
  by rewrite (for_members_scalars _ config members [] w c Hscalars Hc).
Qed.

Lemma put_members_first pre name value post tv (m : gmap string entry) :
  m !! c_str name = None →
  Forall (λ member : string * Value, c_str member.1 ≠ c_str name) pre →
  scalar_of value = Some tv →
  put_members (pre ++ (name, value) :: post) m !! c_str name = Some (entry_of tv).
Proof.
  intros Hfree Hpre Htv.
  change (put_members (pre ++ (name, value) :: post) m)
    with (foldl (λ m (member : string * Value),
                   match scalar_of member.2 with
                   | Some tv => umap_insert (c_str member.1) (entry_of tv) m
                   | None => m
                   end) m (pre ++ (name, value) :: post)).
  rewrite foldl_app. simpl. rewrite Htv.
  apply (put_members_lookup post). apply umap_insert_fresh.
  by rewrite <- (put_members_other pre (c_str name) m Hpre) in Hfree.
Qed.

Section json_ingestion.
Variable Parse : string → option Value.

(** X7: what [pmemkv_config_from_json] returns, for every text and
    every live container. A text that does not parse gives
    [PMEMKV_STATUS_CONFIG_PARSING_ERROR] and leaves everything,
    the last-error slot included, as it was. A text that parses to an
    object gives [PMEMKV_STATUS_OK] when nothing fails, with the
    last-error slot as it was, and
    [PMEMKV_STATUS_CONFIG_PARSING_ERROR] with the message of the first
    failure otherwise; no other status and no exception comes out, the
    container stays live and the other containers are untouched. A text
    that parses to anything but an object is outside what [HasMember]
    is defined for. *)
Theorem from_json_outcomes json config w c :
  configs w !! config = Some c →
  match Parse json with
  | None =>
      pmemkv_config_from_json Parse config json w
      = val PMEMKV_STATUS_CONFIG_PARSING_ERROR w
  | Some (VObject members) =>
      ∃ w',
        pmemkv_config_from_json Parse config json w
        = val match diagnosis (VObject members) with
              | None => PMEMKV_STATUS_OK
              | Some _ => PMEMKV_STATUS_CONFIG_PARSING_ERROR
              end w' ∧
        errormsg w' = default (errormsg w) (diagnosis (VObject members)) ∧
        is_Some (configs w' !! config) ∧
        (∀ q c0, q ≠ config → configs w !! q = Some c0 → configs w' !! q = Some c0)
  | Some _ => pmemkv_config_from_json Parse config json w = undef
  end.
Proof.
  intros Hc. unfold pmemkv_config_from_json.
  destruct (Parse json) as [[| | |members|elements|s|n]|]; try done.
  destruct (from_json_document_ingests (VObject members) eq_refl config w c Hc)
    as (w' & Hrun & Hmsg & Hlive & Hothers).
  exists w'. split; [exact Hrun|]. split; [exact Hmsg|]. split; [|exact Hothers].
  destruct (Hlive c Hc) as (c' & Hc' & _). by exists c'.
Qed.

(** X8: a document whose members are all strings, integers of
    [int64_t], doubles or booleans, with ["path"], if there, a string and
    ["size"], if there, a number, is ingested with
    [PMEMKV_STATUS_OK]; the container then holds what putting the
    members one after the other gives, a boolean as the [Int64] 1 or 0,
    and nothing else has changed. *)
Theorem scalar_document_ingested json members config w c :
  Parse json = Some (VObject members) →
  configs w !! config = Some c →
  Forall (λ m : string * Value, supported_scalar m.2 = true) members →
  HasMember "path" members && negb (IsString (member "path" members)) = false →
  HasMember "size" members && negb (IsNumber (member "size" members)) = false →
  pmemkv_config_from_json Parse config json w
  = val PMEMKV_STATUS_OK (holding config (put_members members (umap c)) w).
Proof.
  intros Hparse Hc Hscalars Hpath Hsize.
  unfold pmemkv_config_from_json. rewrite Hparse.
  by apply from_json_document_scalars.
Qed.


(** X10: a scalar member read back. After a document of scalar members
    has been ingested, the getter of a member's type hands back the
    member's value under the member's name, when the container did not
    hold that name and no earlier member has it: a string as its
    characters up to the first NUL, a boolean as 1 or 0. Of members
    with one name the first is the one stored. *)
Theorem ingested_scalar_reads_back json pre name value post tv config w c :
  Parse json = Some (VObject (pre ++ (name, value) :: post)) →
  configs w !! config = Some c →
  Forall (λ m : string * Value, supported_scalar m.2 = true)
    (pre ++ (name, value) :: post) →
  HasMember "path" (pre ++ (name, value) :: post)
  && negb (IsString (member "path" (pre ++ (name, value) :: post))) = false →
  HasMember "size" (pre ++ (name, value) :: post)
  && negb (IsNumber (member "size" (pre ++ (name, value) :: post))) = false →
  umap c !! c_str name = None →
  Forall (λ m : string * Value, c_str m.1 ≠ c_str name) pre →
  scalar_of value = Some tv →
  in_range tv →
  ∃ w',
    pmemkv_config_from_json Parse config json w = val PMEMKV_STATUS_OK w' ∧
    matching_get tv config name w' = val (PMEMKV_STATUS_OK, Some (original tv)) w'.
Proof.
  intros Hparse Hc Hscalars Hpath Hsize Hfree Hpre Htv Hr.
  eexists. split.
  - unfold pmemkv_config_from_json. rewrite Hparse.
    by apply from_json_document_scalars.
  - eapply matching_get_entry_of; [apply holding_lookup | | done].
    simpl. by apply put_members_first.
Qed.
End json_ingestion.


Section json_nesting.
Variable Parse : string → option Value.

End json_nesting.

Lemma from_json_outcomes_witness :
  ∃ w',
    pmemkv_config_from_json parse_more 16 interrupted_text one_container
    = val PMEMKV_STATUS_CONFIG_PARSING_ERROR w' ∧
    errormsg w' = "Unsupported data type in JSON string: Array"%string ∧
    is_Some (configs w' !! 16) ∧
    (∀ q c0, q ≠ 16 → configs one_container !! q = Some c0 → configs w' !! q = Some c0).
Proof.
  exact (from_json_outcomes parse_more interrupted_text 16 one_container
           {| umap := ∅ |} eq_refl).
Defined.

Lemma scalar_document_ingested_witness :
  pmemkv_config_from_json parse_more 16 settings_text one_container
  = val PMEMKV_STATUS_OK
      (holding 16 {[ "path"%string := entry_of (of_string "/dev/shm");
                     "size"%string := entry_of (of_int64 1024);
                     "force"%string := entry_of (of_int64 1) ]} one_container).
Proof.
  apply (scalar_document_ingested parse_more settings_text settings_members 16
           one_container {| umap := ∅ |} eq_refl eq_refl).
  - repeat constructor.
  - reflexivity.
  - reflexivity.
Defined.


Lemma ingested_scalar_reads_back_witness :
  ∃ w',
    pmemkv_config_from_json parse_more 16 settings_text one_container
    = val PMEMKV_STATUS_OK w' ∧
    matching_get (of_int64 1) 16 "force" w'
    = val (PMEMKV_STATUS_OK, Some (got_int64 1)) w'.
Proof.
  apply (ingested_scalar_reads_back parse_more settings_text
           [("path"%string, VString "/dev/shm"); ("size"%string, VNumber (Integer 1024))]
           "force" VTrue [] (of_int64 1) 16 one_container {| umap := ∅ |}
           eq_refl eq_refl).
  - repeat constructor.
  - reflexivity.
  - reflexivity.
  - reflexivity.
  - repeat constructor; discriminate.
  - reflexivity.
  - unfold in_range, INT64_MIN, INT64_MAX. lia.
Defined.


(** ** Opening and closing *)

Lemma try_catch_contained {A} (body : M A) (on_std : string → M A) (on_other : M A) :
  (∀ what, contained (on_std what)) →
  contained on_other →
  contained (try_catch body on_std (Some on_other)).
Proof.
  intros Hstd Hother w e w'. unfold try_catch.
  destruct (body w) as [a w0|[what|] w0|]; [done| | |done].
  - apply Hstd.
  - apply Hother.
Qed.

Section opening.
Variable defined : build.
Variable is_directory : string → bool.
Variable new : engine_ctor → M engine_base.

Lemma constructed_opened ctor db0 w :
  try_catch (e <- new ctor ;; ret (PMEMKV_STATUS_OK, Some (Some e)))
    (λ what, ERR what ;; ret (PMEMKV_STATUS_FAILED, Some None))
    (Some (ERR "Unspecified failure" ;; ret (PMEMKV_STATUS_FAILED, Some db0))) w
  = constructed (new ctor w) db0.
Proof.
  unfold try_catch, bind, constructed.
  by destruct (new ctor w) as [e w'|[what|] w'|].
Qed.

Lemma pmemkv_open_path_size engine_c_str config c db0 w p n ctor :
  String.eqb (c_str engine_c_str) "blackhole" = false →
  ENGINE_CACHING defined && String.eqb (c_str engine_c_str) "caching" = false →
  path_size_engine defined (c_str engine_c_str) = Some ctor →
  configs w !! config = Some c →
  built_by_puts c →
  path_in c = Some p →
  size_in c = Some n →
  pmemkv_open defined is_directory new engine_c_str (Some config) (Some db0) w
  = if wants_directory (c_str engine_c_str) && negb (is_directory p)
    then val (PMEMKV_STATUS_FAILED, Some None)
           (set_errormsg "Config path is not an existing directory" w)
    else constructed (new (ctor p n) w) db0.
Proof.
  intros Hblackhole Hcaching Hctor Hc Hbuilt Hp Hn.
  destruct (get_string_path w config c Hc Hbuilt) as ([s path] & Hpath & Hpath').
  destruct (get_uint64_size w config c Hc Hbuilt) as ([s' size] & Hsize & Hsize').
  rewrite Hp in Hpath'. rewrite Hn in Hsize'. simpl in Hpath'.
  destruct Hpath' as [-> Hpath']. injection Hsize' as -> ->.
  unfold pmemkv_open, try_catch.
  rewrite Hblackhole, Hcaching.
  unfold bind at 1. rewrite Hpath. cbn.
  rewrite decide_False by (by intros []).
  unfold bind at 1. rewrite Hsize. cbn.
  rewrite decide_False by (by intros []). rewrite Hpath'.
  unfold path_size_engine, wants_directory in *.
  remember (c_str engine_c_str) as engine eqn:Hengine. clear Hengine.
  assert (∀ make : string → Z → engine_ctor,
            match (path0 <- of_option (Some p) ;;
                   e <- new (make path0 n) ;; ret (PMEMKV_STATUS_OK, Some (Some e))) w with
            | val a w0 => val a w0
            | exc (std_exception what) w' =>
                ret (PMEMKV_STATUS_FAILED, Some None) (set_errormsg what w')
            | exc foreign_exception w' =>
                ret (PMEMKV_STATUS_FAILED, Some db0)
                  (set_errormsg "Unspecified failure" w')
            | undef => undef
            end = constructed (new (make p n) w) db0) as Hmake.
  { intros make. unfold bind, constructed. cbn.
    by destruct (new (make p n) w) as [e w'|[what|] w'|]. }
  destruct (ENGINE_TREE3 defined && String.eqb engine "tree3") eqn:E3.
  { injection Hctor as <-. apply andb_prop in E3 as [_ ->%String.eqb_eq].
    apply (Hmake new_tree3). }
  destruct (ENGINE_STREE defined && String.eqb engine "stree") eqn:Es.
  { injection Hctor as <-. apply andb_prop in Es as [_ ->%String.eqb_eq].
    apply (Hmake new_stree). }
  destruct (ENGINE_CMAP defined && String.eqb engine "cmap") eqn:Ec.
  { injection Hctor as <-. apply andb_prop in Ec as [_ ->%String.eqb_eq].
    apply (Hmake new_cmap). }
  destruct (ENGINE_VSMAP defined && String.eqb engine "vsmap") eqn:Evs.
  { injection Hctor as <-. apply andb_prop in Evs as [-> ->%String.eqb_eq]. simpl.
    destruct (is_directory p) eqn:Hdir; simpl.
    - rewrite <- (Hmake new_vsmap). unfold bind. cbn. by rewrite Hdir.
    - unfold bind. cbn. by rewrite Hdir. }
  destruct (ENGINE_VCMAP defined && String.eqb engine "vcmap") eqn:Evc; [|done].
  injection Hctor as <-. apply andb_prop in Evc as [-> ->%String.eqb_eq]. simpl.
  rewrite orb_true_r.
  destruct (is_directory p) eqn:Hdir; simpl.
  - rewrite <- (Hmake new_vcmap). unfold bind. cbn. by rewrite Hdir.
  - unfold bind. cbn. by rewrite Hdir.
Qed.

Lemma pmemkv_open_bad_config engine_c_str config c db0 w :
  String.eqb (c_str engine_c_str) "blackhole" = false →
  ENGINE_CACHING defined && String.eqb (c_str engine_c_str) "caching" = false →
  configs w !! config = Some c →
  built_by_puts c →
  path_in c = None ∨ size_in c = None →
  pmemkv_open defined is_directory new engine_c_str (Some config) (Some db0) w
  = val (PMEMKV_STATUS_FAILED, Some None)
      (set_errormsg match path_in c with
                    | None => "JSON does not contain a valid path string"
                    | Some _ => "Cannot get 'size' from the config"
                    end w).
Proof.
  intros Hblackhole Hcaching Hc Hbuilt Hbad.
  destruct (get_string_path w config c Hc Hbuilt) as ([s path] & Hpath & Hpath').
  destruct (get_uint64_size w config c Hc Hbuilt) as ([s' size] & Hsize & Hsize').
  unfold pmemkv_open, try_catch.
  rewrite Hblackhole, Hcaching.
  unfold bind at 1. rewrite Hpath. cbn.
  destruct (path_in c) as [p|]; simpl in Hpath'.
  - destruct Hbad as [|Hn]; [done|]. rewrite Hn in Hsize'.
    destruct Hpath' as [-> _]. simpl in Hsize'.
    rewrite decide_False by (by intros []).
    unfold bind at 1. rewrite Hsize. cbn.
    by rewrite decide_True by done.
  - by rewrite decide_True by done.
Qed.

Lemma path_in_string c s :
  umap c !! "path"%string = Some (entry_of (of_string s)) → path_in c = Some (c_str s).
Proof. unfold path_in. intros ->. cbn. apply c_str_at_stored. Qed.

Lemma size_in_uint64 c n :
  umap c !! "size"%string = Some (entry_of (of_uint64 n)) → 0 <= n <= UINT64_MAX →
  size_in c = Some n.
Proof. unfold size_in. intros -> Hn. cbn. by apply load_uint64_unsigned. Qed.

Lemma size_in_int64 c n :
  umap c !! "size"%string = Some (entry_of (of_int64 n)) → INT64_MIN <= n <= INT64_MAX →
  size_in c = if decide (n >= 0) then Some n else None.
Proof.
  unfold size_in. intros -> Hn. cbn. by rewrite load_int64_signed by done.
Qed.

(** X12: the engines that take no path and size are opened before the
    configuration is looked at, a null one included: for "blackhole",
    and for "caching" in a build that has it, [pmemkv_open] ends as the
    constructor does, with the new engine in the handle and
    [PMEMKV_STATUS_OK], or with [PMEMKV_STATUS_FAILED] and the message
    of the exception; the handle is set to null for an exception of the
    standard hierarchy and left alone for any other. *)
Theorem open_parameterless engine_c_str config db0 w :
  (c_str engine_c_str = "blackhole"%string →
   pmemkv_open defined is_directory new engine_c_str config (Some db0) w
   = constructed (new new_blackhole w) db0) ∧
  (ENGINE_CACHING defined = true → c_str engine_c_str = "caching"%string →
   pmemkv_open defined is_directory new engine_c_str config (Some db0) w
   = constructed (new (new_caching config) w) db0).
Proof.
  split.
  - intros Hname. unfold pmemkv_open. rewrite Hname. simpl.
    apply constructed_opened.
  - intros Hflag Hname. unfold pmemkv_open. rewrite Hname, Hflag. simpl.
    apply constructed_opened.
Qed.

(** X13: a path-and-size engine of the build is opened from the
    configuration's ["path"] and ["size"] alone. With no string under
    ["path"], or nothing under ["size"] that reads as [UInt64],
    [pmemkv_open] returns [PMEMKV_STATUS_FAILED] with the handle null
    and no constructor called; for "vsmap" and "vcmap" so it does when
    the path is not a directory, which the other engines do not ask;
    otherwise it calls the constructor of that engine with the path and
    the size and ends as the constructor does. *)
Theorem open_path_size_engine engine_c_str config c db0 w ctor :
  String.eqb (c_str engine_c_str) "blackhole" = false →
  ENGINE_CACHING defined && String.eqb (c_str engine_c_str) "caching" = false →
  path_size_engine defined (c_str engine_c_str) = Some ctor →
  configs w !! config = Some c →
  built_by_puts c →
  pmemkv_open defined is_directory new engine_c_str (Some config) (Some db0) w
  = match path_in c, size_in c with
    | None, _ =>
        val (PMEMKV_STATUS_FAILED, Some None)
          (set_errormsg "JSON does not contain a valid path string" w)
    | Some _, None =>
        val (PMEMKV_STATUS_FAILED, Some None)
          (set_errormsg "Cannot get 'size' from the config" w)
    | Some p, Some n =>
        if wants_directory (c_str engine_c_str) && negb (is_directory p)
        then val (PMEMKV_STATUS_FAILED, Some None)
               (set_errormsg "Config path is not an existing directory" w)
        else constructed (new (ctor p n) w) db0
    end.
Proof.
  intros Hblackhole Hcaching Hctor Hc Hbuilt.
  destruct (path_in c) as [p|] eqn:Hp; [destruct (size_in c) as [n|] eqn:Hn|].
  - by apply pmemkv_open_path_size with c.
  - rewrite (pmemkv_open_bad_config _ _ c) by auto. by rewrite Hp.
  - rewrite (pmemkv_open_bad_config _ _ c) by auto. by rewrite Hp.
Qed.

(** X14: no exception leaves [pmemkv_open], whatever the constructors
    throw. *)
Theorem open_contains_exceptions engine_c_str config db :
  contained (pmemkv_open defined is_directory new engine_c_str config db).
Proof.
  unfold pmemkv_open. destruct db as [db0|]; [|done].
  apply try_catch_contained; [|done]. by intros what.
Qed.
End opening.

Section json_to_open.
Variable Parse : string → option Value.
Variable defined : build.
Variable is_directory : string → bool.
Variable new : engine_ctor → M engine_base.

(** X15: from a JSON text to an engine. A document with a string
    ["path"] and a number ["size"], ingested into an empty container,
    opens a path-and-size engine with the path up to its first NUL and
    the size when the size is an integer literal from 0 to [INT64_MAX].
    A negative size and a size written as a double are ingested with
    [PMEMKV_STATUS_OK] as well, and are refused by [pmemkv_open], which
    reads an [Int64] or [UInt64] entry only. *)
Theorem json_configures_open json p size tv engine_c_str config db0 w ctor :
  Parse json = Some (VObject [("path"%string, VString p); ("size"%string, VNumber size)]) →
  configs w !! config = Some {| umap := ∅ |} →
  scalar_of (VNumber size) = Some tv →
  in_range tv →
  String.eqb (c_str engine_c_str) "blackhole" = false →
  ENGINE_CACHING defined && String.eqb (c_str engine_c_str) "caching" = false →
  path_size_engine defined (c_str engine_c_str) = Some ctor →
  wants_directory (c_str engine_c_str) && negb (is_directory (c_str p)) = false →
  ∃ w1,
    pmemkv_config_from_json Parse config json w = val PMEMKV_STATUS_OK w1 ∧
    pmemkv_open defined is_directory new engine_c_str (Some config) (Some db0) w1
    = match size with
      | Integer n =>
          if decide (0 <= n) then constructed (new (ctor (c_str p) n) w1) db0
          else val (PMEMKV_STATUS_FAILED, Some None)
                 (set_errormsg "Cannot get 'size' from the config" w1)
      | Double _ =>
          val (PMEMKV_STATUS_FAILED, Some None)
            (set_errormsg "Cannot get 'size' from the config" w1)
      end.
Proof.
  intros Hparse Hc Htv Hr Hblackhole Hcaching Hctor Hdir.
  set (members := [("path"%string, VString p); ("size"%string, VNumber size)]) in *.
  assert (supported_scalar (VNumber size) = true) as Hsize.
  { unfold supported_scalar. destruct size as [n|bits]; [|done].
    simpl in *. by destruct ((INT64_MIN <=? n) && (n <=? INT64_MAX)). }
  exists (holding config (put_members members ∅) w). split.
  { unfold pmemkv_config_from_json. rewrite Hparse.
    apply (from_json_document_scalars members config w {| umap := ∅ |} Hc); [|done..].
    repeat constructor. exact Hsize. }
  set (c1 := {| umap := put_members members ∅ |}).
  assert (umap c1 !! "path"%string = Some (entry_of (of_string p))) as Hpath.
  { apply (put_members_first [] "path" (VString p) [("size"%string, VNumber size)]);
      [done | constructor | done]. }
  assert (umap c1 !! "size"%string = Some (entry_of tv)) as Hsz.
  { apply (put_members_first [("path"%string, VString p)] "size" (VNumber size) []);
      [done | by repeat constructor | done]. }
  assert (built_by_puts c1) as Hbuilt.
  { unfold c1, members, put_members. cbn [foldl fst snd]. rewrite Htv. cbn [scalar_of].
    apply (built_by_puts_insert
             {| umap := umap_insert (c_str "path") (entry_of (of_string p)) ∅ |});
      [|done].
    by apply (built_by_puts_insert {| umap := ∅ |}); [apply built_by_puts_empty|]. }
  pose proof (holding_lookup config (put_members members ∅) w) as Hc1.
  pose proof (path_in_string c1 p Hpath) as Hp.
  destruct size as [n|bits].
  - simpl in Htv. destruct ((INT64_MIN <=? n) && (n <=? INT64_MAX)); [|done].
    injection Htv as <-.
    pose proof (size_in_int64 c1 n Hsz Hr) as Hn.
    destruct (decide (0 <= n));
      [rewrite decide_True in Hn by lia | rewrite decide_False in Hn by lia].
    + rewrite (pmemkv_open_path_size defined is_directory new _ _ c1 db0 _ (c_str p) n ctor)
        by done.
      by rewrite Hdir.
    + rewrite (pmemkv_open_bad_config defined is_directory new _ _ c1) by auto.
      by rewrite Hp.
  - injection Htv as <-.
    assert (size_in c1 = None) as Hn by (unfold size_in; by rewrite Hsz).
    rewrite (pmemkv_open_bad_config defined is_directory new _ _ c1) by auto.
    by rewrite Hp.
Qed.
End json_to_open.

Lemma open_parameterless_witness :
  pmemkv_open blackhole_only (λ _, false) new_empty "blackhole" None (Some None)
    path_size_world
  = val (PMEMKV_STATUS_OK, Some (Some (engine_answering [] (returns PMEMKV_STATUS_NOT_FOUND))))
      path_size_world ∧
  pmemkv_open every_engine (λ _, false) new_empty "caching" (Some 16) (Some None)
    path_size_world
  = val (PMEMKV_STATUS_OK, Some (Some (engine_answering [] (returns PMEMKV_STATUS_NOT_FOUND))))
      path_size_world.
Proof.
  split.
  - exact (proj1 (open_parameterless blackhole_only (λ _, false) new_empty "blackhole"
                    None None path_size_world) eq_refl).
  - exact (proj2 (open_parameterless every_engine (λ _, false) new_empty "caching"
                    (Some 16) None path_size_world) eq_refl eq_refl).
Defined.

(** "vsmap" on a path that is no directory, and "cmap" on the same. *)
Lemma open_path_size_engine_witness :
  pmemkv_open every_engine (λ _, false) new_empty "vsmap" (Some 16) (Some None)
    path_size_world
  = val (PMEMKV_STATUS_FAILED, Some None)
      (set_errormsg "Config path is not an existing directory" path_size_world) ∧
  pmemkv_open every_engine (λ _, false) new_empty "cmap" (Some 16) (Some None)
    path_size_world
  = val (PMEMKV_STATUS_OK, Some (Some (engine_answering [] (returns PMEMKV_STATUS_NOT_FOUND))))
      path_size_world.
Proof.
  split.
  - exact (open_path_size_engine every_engine (λ _, false) new_empty "vsmap" 16
             path_size_container None path_size_world new_vsmap
             eq_refl eq_refl eq_refl eq_refl path_size_container_built).
  - exact (open_path_size_engine every_engine (λ _, false) new_empty "cmap" 16
             path_size_container None path_size_world new_cmap
             eq_refl eq_refl eq_refl eq_refl path_size_container_built).
Defined.

Lemma json_configures_open_witness :
  ∃ w1,
    pmemkv_config_from_json parse_path_size 16 path_size_text one_container
    = val PMEMKV_STATUS_OK w1 ∧
    pmemkv_open every_engine (λ _, true) new_empty "vcmap" (Some 16) (Some None) w1
    = val (PMEMKV_STATUS_OK,
           Some (Some (engine_answering [] (returns PMEMKV_STATUS_NOT_FOUND)))) w1.
Proof.
  apply (json_configures_open parse_path_size every_engine (λ _, true) new_empty
           path_size_text "/dev/shm" (Integer 1024) (of_int64 1024) "vcmap" 16 None
           one_container new_vcmap eq_refl eq_refl eq_refl).
  - unfold in_range, INT64_MIN, INT64_MAX. lia.
  - reflexivity.
  - reflexivity.
  - reflexivity.
  - reflexivity.
Defined.

(** ** The facade over the engine *)

Lemma status_call_answered (r : outcome status) w :
  try_catch (call r)
    (λ what, ERR what ;; ret PMEMKV_STATUS_FAILED)
    (Some (ERR "Unspecified failure" ;; ret PMEMKV_STATUS_FAILED)) w
  = val (answered r) (caught r w).
Proof. by destruct r as [s|[what|]]. Qed.

Lemma count_call_answered (cnt : option nat) (r : outcome status) w :
  try_catch (s <- call r ;; ret (s, cnt))
    (λ what, ERR what ;; ret (PMEMKV_STATUS_FAILED, cnt))
    (Some (ERR "Unspecified failure" ;; ret (PMEMKV_STATUS_FAILED, cnt))) w
  = val (answered r, cnt) (caught r w).
Proof. by destruct r as [s|[what|]]. Qed.

Lemma caught_keeps r w :
  configs (caught r w) = configs w ∧ deleter_calls (caught r w) = deleter_calls w.
Proof. by destruct r as [s|[what|]]. Qed.

(** X16: the operations of the facade, [pmemkv_get_above] apart, hand
    the engine's status on as it is, and answer an exception of the
    engine with [PMEMKV_STATUS_FAILED] and its message in the last-error
    slot, ["Unspecified failure"] for one outside the standard
    hierarchy. A count the engine has stored stays stored when it
    throws afterwards. A call that completes leaves the last-error slot
    alone, so that [pmemkv_errormsg] after it still gives the message of
    the last failure; containers are never touched. *)
Theorem facade_hands_status_on db k k2 v c arg w :
  then_errormsg (pmemkv_count_all db) w
  = val ((answered (count_all db).2, (count_all db).1),
         errormsg (caught (count_all db).2 w)) (caught (count_all db).2 w) ∧
  then_errormsg (pmemkv_count_above db k) w
  = val ((answered (count_above db k).2, (count_above db k).1),
         errormsg (caught (count_above db k).2 w)) (caught (count_above db k).2 w) ∧
  then_errormsg (pmemkv_count_below db k) w
  = val ((answered (count_below db k).2, (count_below db k).1),
         errormsg (caught (count_below db k).2 w)) (caught (count_below db k).2 w) ∧
  then_errormsg (pmemkv_count_between db k k2) w
  = val ((answered (count_between db k k2).2, (count_between db k k2).1),
         errormsg (caught (count_between db k k2).2 w))
      (caught (count_between db k k2).2 w) ∧
  then_errormsg (pmemkv_get_all db c arg) w
  = val (answered (get_all db c arg), errormsg (caught (get_all db c arg) w))
      (caught (get_all db c arg) w) ∧
  then_errormsg (pmemkv_get_below db k c arg) w
  = val (answered (get_below db k c arg), errormsg (caught (get_below db k c arg) w))
      (caught (get_below db k c arg) w) ∧
  then_errormsg (pmemkv_get_between db k k2 c arg) w
  = val (answered (get_between db k k2 c arg),
         errormsg (caught (get_between db k k2 c arg) w))
      (caught (get_between db k k2 c arg) w) ∧
  then_errormsg (pmemkv_exists db k) w
  = val (answered (exists_ db k), errormsg (caught (exists_ db k) w))
      (caught (exists_ db k) w) ∧
  then_errormsg (pmemkv_get db k c arg) w
  = val (answered (get db k).2, errormsg (caught (get db k).2 w))
      (caught (get db k).2 w) ∧
  then_errormsg (pmemkv_put db k v) w
  = val (answered (put db k v), errormsg (caught (put db k v) w))
      (caught (put db k v) w) ∧
  then_errormsg (pmemkv_remove db k) w
  = val (answered (remove db k), errormsg (caught (remove db k) w))
      (caught (remove db k) w).
Proof.
  assert (∀ A (op : M A) a w', op w = val a w' →
            then_errormsg op w = val (a, errormsg w') w') as Hmsg.
  { intros A op a w' Hop. unfold then_errormsg, bind. by rewrite Hop. }
  unfold pmemkv_count_all, pmemkv_count_above, pmemkv_count_below, pmemkv_count_between,
    pmemkv_get_all, pmemkv_get_below, pmemkv_get_between, pmemkv_exists, pmemkv_get,
    pmemkv_put, pmemkv_remove.
  destruct (count_all db) as [cnt1 r1], (count_above db k) as [cnt2 r2],
    (count_below db k) as [cnt3 r3], (count_between db k k2) as [cnt4 r4].
  repeat split; apply Hmsg;
    first [apply count_call_answered | apply status_call_answered].
Qed.

(** X17: [pmemkv_get_above] does as the other operations do whenever
    the engine does not throw outside the standard hierarchy. *)
Theorem get_above_answers_unless_foreign db k c arg w :
  get_above db k c arg ≠ throws foreign_exception →
  pmemkv_get_above db k c arg w
  = val (answered (get_above db k c arg)) (caught (get_above db k c arg) w).
Proof.
  intros Hr. unfold pmemkv_get_above.
  by destruct (get_above db k c arg) as [s|[what|]].
Qed.

(** What the callback does to a context without a buffer. *)
Lemma run_callback_null delivered ctx :
  buffer ctx = None →
  run_callback delivered ctx
  = Some match last delivered with
         | None => ctx
         | Some v =>
             {| result := if decide (length v < buffer_size ctx)%nat
                          then PMEMKV_STATUS_OK else PMEMKV_STATUS_FAILED;
                buffer_size := buffer_size ctx;
                buffer := None;
                value_size := written (value_size ctx) (length v) |}
         end.
Proof.
  revert ctx. induction delivered as [|v rest IH]; intros ctx Hnull; [done|].
  assert (∀ vs a b, written (written vs a) b = written vs b) as Hwritten
    by (by intros [n|] a b).
  assert (get_copy_callback v ctx
          = Some {| result := if decide (length v < buffer_size ctx)%nat
                              then PMEMKV_STATUS_OK else PMEMKV_STATUS_FAILED;
                    buffer_size := buffer_size ctx;
                    buffer := None;
                    value_size := written (value_size ctx) (length v) |}) as Hstep.
  { unfold get_copy_callback. rewrite Hnull. by case_decide. }
  cbn [run_callback]. rewrite Hstep. cbn [mbind option_bind].
  rewrite IH by done. cbn [buffer_size value_size].
  destruct rest as [|v' rest]; [done|].
  change (last (v :: v' :: rest)) with (last (v' :: rest)).
  destruct (last (v' :: rest)) eqn:Hlast; [by rewrite Hwritten|].
  by apply last_None in Hlast.
Qed.

(** X18: [pmemkv_get_copy] with a null buffer asks for the size. No byte
    is copied; the status is that of the last value the engine handed
    out, [PMEMKV_STATUS_OK] when it is shorter than [buffer_size] and
    [PMEMKV_STATUS_FAILED] otherwise, with its length stored through
    [value_size], and [PMEMKV_STATUS_NOT_FOUND] with [value_size]
    untouched when the engine handed out none. With [buffer_size] 0 a
    key that is found always gives [PMEMKV_STATUS_FAILED]. *)
Theorem get_copy_null_buffer db k (buffer_size : nat) value_size w s :
  (get db k).2 = returns s →
  pmemkv_get_copy db k None buffer_size value_size w
  = val match last (get db k).1 with
        | None => (PMEMKV_STATUS_NOT_FOUND, None, value_size)
        | Some v =>
            (if decide (length v < buffer_size)%nat
             then PMEMKV_STATUS_OK else PMEMKV_STATUS_FAILED,
             None, written value_size (length v))
        end w.
Proof.
  intros Hr. unfold pmemkv_get_copy, bind, of_option. cbn.
  destruct (get db k) as [delivered r]. simpl in *. subst r.
  rewrite run_callback_null by done. cbn.
  by destruct (last delivered).
Qed.

(** X19: [pmemkv_get_copy] does not return the status of the engine. An
    engine that completes without calling the callback, with whatever
    status, is answered with [PMEMKV_STATUS_NOT_FOUND]; in general two
    engines that hand out the same values and both complete give the
    same result. *)
Theorem get_copy_drops_engine_status db db' k k' buffer buffer_size value_size w s s' :
  get db k = ((get db' k').1, returns s) →
  (get db' k').2 = returns s' →
  pmemkv_get_copy db k buffer buffer_size value_size w
  = pmemkv_get_copy db' k' buffer buffer_size value_size w ∧
  ((get db k).1 = [] → (buffer = None ∨ ∃ dst, buffer = Some dst ∧ length dst = buffer_size) →
   ∃ buf, pmemkv_get_copy db k buffer buffer_size value_size w
          = val (PMEMKV_STATUS_NOT_FOUND, buf, value_size) w).
Proof.
  intros Hget Hget'. split.
  - unfold pmemkv_get_copy, bind, of_option. destruct (get db' k') as [delivered r'].
    simpl in *. subst r'. rewrite Hget.
    destruct buffer as [dst|]; cbn.
    + destruct (memset dst Byte.x00 buffer_size); cbn; [|done].
      by destruct (run_callback delivered _).
    + by destruct (run_callback delivered _).
  - intros Hnone [->|(dst & -> & <-)].
    + exists None. unfold pmemkv_get_copy, bind, of_option. cbn.
      rewrite Hget in Hnone |- *. simpl in Hnone. by rewrite Hnone.
    + exists (Some (replicate (length dst) Byte.x00)).
      rewrite pmemkv_get_copy_zeroed. rewrite Hnone. cbn. by rewrite Hget.
Qed.

(** What the callback keeps of a context with a buffer. *)
Lemma run_callback_within delivered ctx dst :
  buffer ctx = Some dst →
  (buffer_size ctx ≤ length dst)%nat →
  ∃ ctx' dst',
    run_callback delivered ctx = Some ctx' ∧
    buffer ctx' = Some dst' ∧
    buffer_size ctx' = buffer_size ctx ∧
    length dst' = length dst ∧
    drop (buffer_size ctx) dst' = drop (buffer_size ctx) dst.
Proof.
  revert ctx dst. induction delivered as [|v rest IH]; intros ctx dst Hbuf Hsize.
  { by exists ctx, dst. }
  cbn [run_callback]. unfold get_copy_callback. rewrite Hbuf.
  destruct (decide (length v < buffer_size ctx)%nat) as [Hfits|Hlong].
  - unfold memcpy. rewrite decide_True by lia. cbn [mbind option_bind].
    rewrite firstn_all.
    destruct (IH {| result := PMEMKV_STATUS_OK; buffer_size := buffer_size ctx;
                    buffer := Some (v ++ drop (length v) dst);
                    value_size := match value_size ctx with
                                  | Some _ => Some (length v)
                                  | None => None
                                  end |} (v ++ drop (length v) dst) eq_refl)
      as (ctx' & dst' & Hrun & Hbuf' & Hsize' & Hlen & Hrest).
    { cbn. rewrite length_app, length_drop. lia. }
    exists ctx', dst'. cbn in *. split; [done|]. split; [done|]. split; [done|]. split.
    + rewrite Hlen, length_app, length_drop. lia.
    + rewrite Hrest, drop_app_ge by lia. rewrite drop_drop. f_equal. lia.
  - cbn [mbind option_bind].
    destruct (IH {| result := PMEMKV_STATUS_FAILED; buffer_size := buffer_size ctx;
                    buffer := Some dst;
                    value_size := match value_size ctx with
                                  | Some _ => Some (length v)
                                  | None => None
                                  end |} dst eq_refl Hsize)
      as (ctx' & dst' & Hrun & Hbuf' & Hsize' & Hlen & Hrest).
    by exists ctx', dst'.
Qed.

(** X20: [pmemkv_get_copy] stays inside the buffer. When the caller's
    array has at least [buffer_size] bytes, every [memset] and [memcpy]
    of the call is within bounds, whatever the engine hands out and
    however often, the call returns, and the bytes of the array from
    [buffer_size] on are as they were. *)
Theorem get_copy_stays_inside db k dst (buffer_size : nat) value_size w :
  (buffer_size ≤ length dst)%nat →
  ∃ st dst' vs w',
    pmemkv_get_copy db k (Some dst) buffer_size value_size w
    = val (st, Some dst', vs) w' ∧
    length dst' = length dst ∧
    drop buffer_size dst' = drop buffer_size dst.
Proof.
  intros Hsize. unfold pmemkv_get_copy, bind, of_option, memset.
  rewrite decide_True by done. cbn.
  destruct (get db k) as [delivered r]. cbn.
  destruct (run_callback_within delivered
              {| result := PMEMKV_STATUS_NOT_FOUND; buffer_size := buffer_size;
                 buffer := Some (replicate buffer_size Byte.x00 ++ drop buffer_size dst);
                 value_size := value_size |}
              (replicate buffer_size Byte.x00 ++ drop buffer_size dst) eq_refl)
    as (ctx' & dst' & Hrun & Hbuf' & _ & Hlen & Hrest).
  { cbn. rewrite length_app, length_replicate, length_drop. lia. }
  cbn in Hrest. rewrite Hrun. cbn.
  unfold try_catch, bind, call, leaving. rewrite Hbuf'.
  assert (length dst' = length dst) as Hlen'.
  { rewrite Hlen, length_app, length_replicate, length_drop. lia. }
  assert (drop buffer_size dst' = drop buffer_size dst) as Hrest'.
  { rewrite Hrest, drop_app_ge by (rewrite length_replicate; lia).
    rewrite length_replicate, Nat.sub_diag. done. }
  destruct r as [s|[what|]]; cbn; eauto 10.
Qed.

(** The size of a value asked for with no buffer. *)
Lemma get_copy_null_buffer_witness :
  pmemkv_get_copy (engine_answering [hello] (returns PMEMKV_STATUS_OK)) [] None 0
    (Some 0%nat) one_container
  = val (PMEMKV_STATUS_FAILED, None, Some 5%nat) one_container.
Proof.
  exact (get_copy_null_buffer (engine_answering [hello] (returns PMEMKV_STATUS_OK)) []
           0 (Some 0%nat) one_container PMEMKV_STATUS_OK eq_refl).
Defined.

(** An engine that fails with a status and hands out nothing. *)
Lemma get_copy_drops_engine_status_witness :
  pmemkv_get_copy (engine_answering [] (returns PMEMKV_STATUS_FAILED)) [] (Some hello) 5
    None one_container
  = pmemkv_get_copy (engine_answering [] (returns PMEMKV_STATUS_NOT_FOUND)) []
      (Some hello) 5 None one_container ∧
  ∃ buf, pmemkv_get_copy (engine_answering [] (returns PMEMKV_STATUS_FAILED)) []
           (Some hello) 5 None one_container
         = val (PMEMKV_STATUS_NOT_FOUND, buf, None) one_container.
Proof.
  pose proof (get_copy_drops_engine_status
                (engine_answering [] (returns PMEMKV_STATUS_FAILED))
                (engine_answering [] (returns PMEMKV_STATUS_NOT_FOUND))
                [] [] (Some hello) 5 None one_container
                PMEMKV_STATUS_FAILED PMEMKV_STATUS_NOT_FOUND eq_refl eq_refl)
    as [Hsame Hnone].
  split; [exact Hsame|].
  apply Hnone; [reflexivity|]. right. by exists hello.
Defined.

(** A buffer of 8 bytes passed with [buffer_size] 6. *)
Lemma get_copy_stays_inside_witness :
  ∃ st dst' vs w',
    pmemkv_get_copy (engine_answering [hello] (returns PMEMKV_STATUS_OK)) []
      (Some (replicate 8 Byte.xff)) 6 None one_container
    = val (st, Some dst', vs) w' ∧
    length dst' = 8%nat ∧
    drop 6 dst' = [Byte.xff; Byte.xff].
Proof.
  apply (get_copy_stays_inside (engine_answering [hello] (returns PMEMKV_STATUS_OK)) []
           (replicate 8 Byte.xff) 6 None one_container).
  simpl. lia.
Defined.

(** ** Nested objects that are not stored *)




Section json_orphans.
Variable Parse : string → option Value.


End json_orphans.

Lemma get_above_answers_unless_foreign_witness :
  pmemkv_get_above (engine_answering [] (throws (std_exception "out of space"))) [] 0 0
    one_container
  = val PMEMKV_STATUS_FAILED (set_errormsg "out of space" one_container).
Proof.
  apply (get_above_answers_unless_foreign
           (engine_answering [] (throws (std_exception "out of space"))) [] 0 0
           one_container).
  discriminate.
Defined.


